(** * The API-resource catalog of [pkg/apiwatch/resources.go]

    A shallow embedding of the list/watch engine that presents the API
    resources of a cluster as a versioned collection: the version counter,
    the definer index, the subresource tree builder, [List], [Watch], the
    invalidation entry points and the relist loop, followed by the
    properties established about them. *)

From Stdlib Require Import ZArith String Ascii DecimalString DecimalPos DecimalZ Permutation Sorted Lia.
From stdpp Require Import gmap strings list fin_maps.

Set Warnings "-register-all,-clear-no-such-hyp".
Local Open Scope string_scope.
Local Open Scope list_scope.
Local Open Scope Z_scope.

(** ** Machine integers, time and library functions *)

(** Go's [int64]: arithmetic wraps around silently. *)
Module Int64.
Definition modulus : Z := 2 ^ 64.
Definition min_int : Z := - 2 ^ 63.
Definition max_int : Z := 2 ^ 63 - 1.
Definition in_range (z : Z) : Prop := min_int <= z <= max_int.
Definition wrap (z : Z) : Z := (z + 2 ^ 63) mod modulus - 2 ^ 63.
Definition add (a b : Z) : Z := wrap (a + b).
Definition mul (a b : Z) : Z := wrap (a * b).
(** [time.Time.Sub] saturates instead of wrapping. *)
Definition saturate (z : Z) : Z := Z.max min_int (Z.min max_int z).
End Int64.

(** [time.Time] as nanoseconds on the monotonic clock, [time.Duration] as
    an [int64] count of nanoseconds. *)
Module Time.
Definition Time : Type := Z.
Definition Duration : Type := Z.
Definition Second : Duration := 1000000000.
Definition Add (t : Time) (d : Duration) : Time := t + d.
Definition Sub (t u : Time) : Duration := Int64.saturate (t - u).
Definition Before (t u : Time) : bool := t <? u.
End Time.

(** [strconv.FormatInt(i, 10)]. *)
Definition FormatInt (i : Z) : string := NilZero.string_of_int (Z.to_int i).

Definition slash : ascii := "/"%char.

(** [strings.Split(s, "/")]: the pieces between the slashes; never empty. *)
Fixpoint Split (s : string) : list string :=
  match s with
  | EmptyString => [EmptyString]
  | String c rest =>
      if Ascii.eqb c slash then EmptyString :: Split rest
      else match Split rest with
           | piece :: pieces => String c piece :: pieces
           | [] => [String c EmptyString]
           end
  end.

(** [strings.Count(s, "/")]. *)
Fixpoint Count (s : string) : nat :=
  match s with
  | EmptyString => O
  | String c rest => (if Ascii.eqb c slash then 1 else 0)%nat + Count rest
  end.

(** The part of [s] before its first slash and the part after it
    ([s[:i]] and [s[i+1:]] for [i := strings.Index(s, "/")]). *)
Fixpoint cutSlash (s : string) : string * string :=
  match s with
  | EmptyString => (EmptyString, EmptyString)
  | String c rest =>
      if Ascii.eqb c slash then (EmptyString, rest)
      else let '(before, after) := cutSlash rest in (String c before, after)
  end.

Definition hasSlash (s : string) : bool := negb (Nat.eqb (Count s) 0).

(** ** Data model *)

(** [schema.GroupVersion]. *)
Record GroupVersion := { gvGroup : string; gvVersion : string }.

(** [schema.ParseGroupVersion]: the empty string and ["/"] are the empty
    group-version, no slash means a version of the core group, one slash
    separates group and version, anything else is an error. *)
Definition ParseGroupVersion (gv : string) : option GroupVersion :=
  if String.eqb gv "" || String.eqb gv "/" then
    Some {| gvGroup := ""; gvVersion := "" |}
  else match Count gv with
       | O => Some {| gvGroup := ""; gvVersion := gv |}
       | S O => let '(g, v) := cutSlash gv in Some {| gvGroup := g; gvVersion := v |}
       | _ => None
       end.

(** [schema.GroupVersionKind] and its [ToAPIVersionAndKind]. *)
Record GroupVersionKind := { gvkGroup : string; gvkVersion : string; gvkKind : string }.

Definition ToAPIVersionAndKind (gvk : GroupVersionKind) : string * string :=
  if String.eqb (gvkGroup gvk) "" && String.eqb (gvkVersion gvk) "" && String.eqb (gvkKind gvk) ""
  then ("", "")
  else (if String.eqb (gvkGroup gvk) "" then gvkVersion gvk
        else gvkGroup gvk +:+ "/" +:+ gvkVersion gvk,
        gvkKind gvk).

(** [metav1.GroupVersionResource], the key of one resource type. *)
Record GroupVersionResource := { gvrGroup : string; gvrVersion : string; gvrResource : string }.

(** [objectID] identifies an object that defines resources. *)
Record objectID := { oidAPIVersion : string; oidKind : string; oidName : string }.

#[global] Instance GroupVersionResource_eq_dec : EqDecision GroupVersionResource.
Proof. solve_decision. Defined.

#[global] Instance objectID_eq_dec : EqDecision objectID.
Proof. solve_decision. Defined.

#[global] Instance GroupVersionResource_countable : Countable GroupVersionResource.
Proof.
  refine (inj_countable' (λ r, (gvrGroup r, gvrVersion r, gvrResource r))
            (λ '(g, v, r), Build_GroupVersionResource g v r) _).
  by intros [].
Defined.

#[global] Instance objectID_countable : Countable objectID.
Proof.
  refine (inj_countable' (λ o, (oidAPIVersion o, oidKind o, oidName o))
            (λ '(a, k, n), Build_objectID a k n) _).
  by intros [].
Defined.

(** [metav1.APIGroup], with the version of its [PreferredVersion]. *)
Record APIGroup := { agName : string; agPreferredVersion : string }.

(** [metav1.APIResource], one entry of the discovery feed. *)
Record DiscoveredResource := {
  drName : string;
  drSingularName : string;
  drNamespaced : bool;
  drVersion : string;
  drKind : string;
  drVerbs : list string
}.

(** [metav1.APIResourceList], the resources of one group-version. *)
Record DiscoveredResourceList := {
  drlGroupVersion : string;
  drlAPIResources : list DiscoveredResource
}.

(** [ksmetav1a1.Definer]. *)
Record Definer := { defKind : string; defName : string }.

(** [ksmetav1a1.APIResourceSpec]; [SubResources] nests further specs. *)
Inductive APIResourceSpec := Build_APIResourceSpec {
  Name : string;
  SingularName : string;
  Namespaced : bool;
  Group : string;
  Version : string;
  Kind : string;
  Verbs : list string;
  Definers : list Definer;
  SubResources : list APIResourceSpec
}.

Record TypeMeta := { tmKind : string; tmAPIVersion : string }.
Record ObjectMeta := { omName : string; omResourceVersion : string }.

(** [ksmetav1a1.APIResource]. *)
Record APIResource := {
  arTypeMeta : TypeMeta;
  arObjectMeta : ObjectMeta;
  arSpec : APIResourceSpec
}.

(** [ksmetav1a1.APIResourceList]. *)
Record APIResourceList := {
  arlTypeMeta : TypeMeta;
  arlResourceVersion : string;
  arlItems : list APIResource
}.

(** Go leaves the order of a [range] over a map unspecified.  A
    [RangeOrder] is one choice of that order: it rearranges the entries it
    is given and neither drops nor repeats any. *)
Record RangeOrder := {
  ranged : ∀ A : Type, list A → list A;
  ranged_perm : ∀ (A : Type) (l : list A), ranged A l ≡ₚ l
}.
Arguments ranged _ {A} _.

Definition orderAsStored : RangeOrder :=
  {| ranged := λ A l, l; ranged_perm := λ A l, reflexivity l |}.

Definition orderReversed : RangeOrder :=
  {| ranged := λ A l, rev l; ranged_perm := λ A l, symmetry (Permutation_rev l) |}.

(** ** The definer index *)

(** The two mappings [rscToDefiners] and [definerToRscs] of the catalog. *)
Record DefinerIndex := {
  rscToDefiners : gmap GroupVersionResource (gset objectID);
  definerToRscs : gmap objectID (gset GroupVersionResource)
}.

Definition emptyIndex : DefinerIndex :=
  {| rscToDefiners := ∅; definerToRscs := ∅ |}.

(** Reading a Go map at a key that may be absent gives the zero value. *)
Definition definersOf (m : gmap GroupVersionResource (gset objectID))
    (r : GroupVersionResource) : gset objectID :=
  default ∅ (m !! r).

Definition resourcesOf (m : gmap objectID (gset GroupVersionResource))
    (d : objectID) : gset GroupVersionResource :=
  default ∅ (m !! d).

(** Modelled from the spec: [setDefinerLocked] is called by
    [invalidateWithDefinerLocked] and declared in another file of package
    [apiwatch]; this is its first half.  Section 4.3: remove [id] from the
    resource-to-definers entry of every resource no longer defined, pruning
    an entry that becomes empty. *)
Definition dropDefiner (id : objectID)
    (r : GroupVersionResource) (m : gmap GroupVersionResource (gset objectID))
    : gmap GroupVersionResource (gset objectID) :=
  match m !! r with
  | Some ds =>
      let ds' := ds ∖ {[id]} in
      if decide (ds' = ∅) then delete r m else <[r := ds']> m
  | None => m
  end.

(** Modelled from the spec: the other half of the update of section 4.3,
    add [id] to the resource-to-definers entry of a newly defined resource. *)
Definition addDefiner (id : objectID)
    (r : GroupVersionResource) (m : gmap GroupVersionResource (gset objectID))
    : gmap GroupVersionResource (gset objectID) :=
  <[r := {[id]} ∪ definersOf m r]> m.

(** Modelled from the spec: [setDefinerLocked(id, enumr)] of section 4.3.
    The enumerator is the list of resources it passes to its callback.  The
    new set is compared with the definer's previous set; the resources only
    in the old set lose [id], those only in the new set gain it, and the
    definer's own entry is replaced, or deleted when the new set is empty. *)
Definition setDefinerLocked (id : objectID) (enumr : list GroupVersionResource)
    (idx : DefinerIndex) : DefinerIndex :=
  let newRscs : gset GroupVersionResource := list_to_set enumr in
  let oldRscs := resourcesOf (definerToRscs idx) id in
  let dropped := foldr (dropDefiner id) (rscToDefiners idx) (elements (oldRscs ∖ newRscs)) in
  let added := foldr (addDefiner id) dropped (elements (newRscs ∖ oldRscs)) in
  {| rscToDefiners := added;
     definerToRscs :=
       if decide (newRscs = ∅) then delete id (definerToRscs idx)
       else <[id := newRscs]> (definerToRscs idx) |}.

(** The mirror-image invariant of the index. *)
Definition mirrored (idx : DefinerIndex) : Prop :=
  ∀ d r, d ∈ definersOf (rscToDefiners idx) r ↔ r ∈ resourcesOf (definerToRscs idx) d.

Definition pruned (idx : DefinerIndex) : Prop :=
  (∀ r, rscToDefiners idx !! r ≠ Some ∅) ∧ (∀ d, definerToRscs idx !! d ≠ Some ∅).

(** ** The subresource tree builder *)

(** [arTuple] holds the data for an API resource; [arMap], here the list of
    the entries of the Go map, one per key, maps a path step to its tuple. *)
Inductive arTuple := Build_arTuple {
  spec : option APIResourceSpec;
  subresources : list (string * arTuple)
}.

Abbreviation arMap := (list (string * arTuple)).

(** [am[name]]. *)
Fixpoint lookupStep (name : string) (am : arMap) : option arTuple :=
  match am with
  | [] => None
  | (k, art) :: rest => if String.eqb k name then Some art else lookupStep name rest
  end.

(** [am[name] = art]: overwrite the entry of [name] or add one. *)
Fixpoint storeStep (name : string) (art : arTuple) (am : arMap) : arMap :=
  match am with
  | [] => [(name, art)]
  | (k, old) :: rest =>
      if String.eqb k name then (k, art) :: rest else (k, old) :: storeStep name art rest
  end.

(** [arMap.insert]; [None] is the run-time panic of [name[0]] on an empty
    slice. *)
Fixpoint insert (name : list string) (sp : APIResourceSpec) (am : arMap) : option arMap :=
  match name with
  | [] => None
  | name0 :: rest =>
      let art := match lookupStep name0 am with
                 | Some art => art
                 | None => {| spec := None; subresources := [] |}
                 end in
      match rest with
      | [] => Some (storeStep name0 {| spec := Some sp; subresources := subresources art |} am)
      | _ :: _ =>
          match insert rest sp (subresources art) with
          | Some subs => Some (storeStep name0 {| spec := spec art; subresources := subs |} am)
          | None => None
          end
      end
  end.

(** What [logger.Error] records for a gap in the subresource structure. *)
Record GapLog := { gapPrefix : list string; gapName : string }.

Definition withName (sp : APIResourceSpec) (name : string) : APIResourceSpec :=
  {| Name := name; SingularName := SingularName sp; Namespaced := Namespaced sp;
     Group := Group sp; Version := Version sp; Kind := Kind sp; Verbs := Verbs sp;
     Definers := Definers sp; SubResources := SubResources sp |}.

Definition withSubResources (sp : APIResourceSpec) (subs : list APIResourceSpec)
    : APIResourceSpec :=
  {| Name := Name sp; SingularName := SingularName sp; Namespaced := Namespaced sp;
     Group := Group sp; Version := Version sp; Kind := Kind sp; Verbs := Verbs sp;
     Definers := Definers sp; SubResources := subs |}.

Definition joinRuns {A B : Type} (runs : list (list A * list B)) : list A * list B :=
  (concat (map fst runs), concat (map snd runs)).

(** [arMap.toList].  The body of the loop is [toListEntry]: what one entry
    passes to [consume] and what it logs.  One round of the loop depends on
    no other round, so the rounds are worked out entry by entry and then
    put in the order the [range] takes. *)
Fixpoint toListEntry (order : RangeOrder) (prefix : list string) (name : string)
    (art : arTuple) {struct art} : list APIResourceSpec * list GapLog :=
  match art with
  | {| spec := None |} => ([], [ {| gapPrefix := prefix; gapName := name |} ])
  | {| spec := Some sp; subresources := subs |} =>
      let sp1 := withName sp name in
      let rounds :=
        (fix each (am : arMap) : list (list APIResourceSpec * list GapLog) :=
           match am with
           | [] => []
           | (n, a) :: rest => toListEntry order (prefix ++ [name]) n a :: each rest
           end) subs in
      let '(subSpecs, logs) := joinRuns (ranged order rounds) in
      ([withSubResources sp1 (SubResources sp1 ++ subSpecs)], logs)
  end.

Definition toListRounds (order : RangeOrder) (prefix : list string) (am : arMap)
    : list (list APIResourceSpec * list GapLog) :=
  map (λ '(n, a), toListEntry order prefix n a) am.

Definition toList (order : RangeOrder) (prefix : list string) (am : arMap)
    : list APIResourceSpec * list GapLog :=
  joinRuns (ranged order (toListRounds order prefix am)).

(** ** Watch sessions *)

(** [watch.Event]. *)
Inductive EventType := Added | Modified | Deleted | Bookmark | ErrorEvent.

Record watchEvent := { evType : EventType; evObject : APIResource }.

(** The [results] channel of a [resourceWatch]: what has been sent on it
    and whether it has been closed. *)
Record chan := { sent : list watchEvent; closed : bool }.

(** What one [Watch] call creates: the context made by
    [context.WithTimeout] (its deadline, and whether its cancel function has
    been called) and the channel of the handle. *)
Record watchSession := {
  deadline : Time.Time;
  cancelled : bool;
  results : chan
}.

(** [*apierrors.StatusError] as built by [apierrors.NewResourceExpired]. *)
Record StatusError := { errCode : Z; errReason : string; errMessage : string }.

Definition NewResourceExpired (message : string) : StatusError :=
  {| errCode := 410; errReason := "Expired"; errMessage := message |}.

(** The fields of [metav1.ListOptions] that [Watch] reads; [TimeoutSeconds]
    is a pointer and may be nil. *)
Record ListOptions := {
  ResourceVersion : string;
  TimeoutSeconds : option Z
}.

(** How a [Watch] call ends: with a handle (the session it made), with an
    error, or in a run-time panic. *)
Inductive watchResult :=
| WatchHandle (id : nat)
| WatchError (err : StatusError)
| WatchPanic.

(** ** The catalog state *)

(** [resourcesListWatcher].  [ctxEnded] tells whether [ctx], the context of
    the owning connection, is done; [cacheInvalidations] counts the
    [Invalidate] calls made on the wrapped discovery cache; [cancels] names
    the sessions whose cancel functions the slice holds; [sessions] are the
    contexts and channels made by [Watch] so far. *)
Record resourcesListWatcher := {
  ctxEnded : bool;
  includeSubresources : bool;
  clusterName : string;
  cacheInvalidations : nat;
  resourceVersionI : Z;
  needRelist : bool;
  relistAfter : Time.Time;
  cancels : list nat;
  index : DefinerIndex;
  sessions : list watchSession
}.

(** The state built by [NewAPIResourceInformer]. *)
Definition newWatcher (cluster : string) (withSubresources : bool) : resourcesListWatcher :=
  {| ctxEnded := false; includeSubresources := withSubresources; clusterName := cluster;
     cacheInvalidations := 0; resourceVersionI := 1; needRelist := false;
     relistAfter := 0; cancels := []; index := emptyIndex; sessions := [] |}.

(** Calling the cancel function of a session's context. *)
Definition markCancelled (s : watchSession) : watchSession :=
  {| deadline := deadline s; cancelled := true; results := results s |}.

Definition cancelSession (id : nat) (ss : list watchSession) : list watchSession :=
  alter markCancelled id ss.

(** [for _, cancel := range rlw.cancels { cancel() }]. *)
Definition cancelAll (ids : list nat) (ss : list watchSession) : list watchSession :=
  foldl (λ acc id, cancelSession id acc) ss ids.

(** Whether the context of a session is done at time [now]. *)
Definition sessionDone (rlw : resourcesListWatcher) (now : Time.Time) (s : watchSession) : bool :=
  ctxEnded rlw || cancelled s || (deadline s <=? now).

(** An object handed to the invalidation entry points, as far as they look
    at it: its name ([metav1.Object.GetName]) and the rest of it. *)
Record Object := { objName : string; objBody : nat }.

(** [ResourceDefinitionSupplier]; an enumerator is given by the resources it
    passes to its callback, in order. *)
Record ResourceDefinitionSupplier := {
  GetGVK : Object → GroupVersionKind;
  EnumerateDefinedResources : Object → list GroupVersionResource
}.

Definition enumerateNothing : list GroupVersionResource := [].

Inductive completion := Returned | Panicked.

(** [invalidateWithDefinerLocked], called at time [now]. *)
Definition invalidateWithDefinerLocked (now : Time.Time) (obj : option Object)
    (supplier : option ResourceDefinitionSupplier) (set : bool)
    (rlw : resourcesListWatcher) : resourcesListWatcher * completion :=
  let bumped (idx : DefinerIndex) :=
    {| ctxEnded := ctxEnded rlw; includeSubresources := includeSubresources rlw;
       clusterName := clusterName rlw;
       cacheInvalidations := S (cacheInvalidations rlw);
       resourceVersionI := Int64.add (resourceVersionI rlw) 1;
       needRelist := true;
       relistAfter := Time.Add now (Int64.mul Time.Second 20);
       cancels := cancels rlw; index := idx; sessions := sessions rlw |} in
  match obj, supplier with
  | Some o, Some sup =>
      let gvk := GetGVK sup o in
      let '(apiVersion, kind) := ToAPIVersionAndKind gvk in
      let oid := {| oidAPIVersion := apiVersion; oidKind := kind; oidName := objName o |} in
      if String.eqb (oidAPIVersion oid) "" then (bumped (index rlw), Panicked)
      else if String.eqb (oidKind oid) "" then (bumped (index rlw), Panicked)
      else
        let enumr := if set then EnumerateDefinedResources sup o else enumerateNothing in
        (bumped (setDefinerLocked oid enumr (index rlw)), Returned)
  | _, _ => (bumped (index rlw), Returned)
  end.

Definition InvalidateWithDefiner (now : Time.Time) (obj : option Object)
    (supplier : option ResourceDefinitionSupplier) (set : bool)
    (rlw : resourcesListWatcher) : resourcesListWatcher * completion :=
  invalidateWithDefinerLocked now obj supplier set rlw.

Definition Invalidate (now : Time.Time) (rlw : resourcesListWatcher)
    : resourcesListWatcher * completion :=
  invalidateWithDefinerLocked now None None false rlw.

(** [Watch], called at time [now]. *)
Definition Watch (now : Time.Time) (opts : ListOptions) (rlw : resourcesListWatcher)
    : watchResult * resourcesListWatcher :=
  let resourceVersionS := FormatInt (resourceVersionI rlw) in
  if negb (String.eqb resourceVersionS (ResourceVersion opts)) then
    (WatchError (NewResourceExpired
       ("Requested version " +:+ ResourceVersion opts +:+ ", have version "
        +:+ resourceVersionS +:+ " in cluster " +:+ clusterName rlw)), rlw)
  else
    match TimeoutSeconds opts with
    | None => (WatchPanic, rlw)
    | Some seconds =>
        let timeout := Int64.mul seconds Time.Second in
        let id := length (sessions rlw) in
        let session := {| deadline := Time.Add now timeout; cancelled := false;
                          results := {| sent := []; closed := false |} |} in
        (WatchHandle id,
         {| ctxEnded := ctxEnded rlw; includeSubresources := includeSubresources rlw;
            clusterName := clusterName rlw; cacheInvalidations := cacheInvalidations rlw;
            resourceVersionI := resourceVersionI rlw; needRelist := needRelist rlw;
            relistAfter := relistAfter rlw;
            cancels := cancels rlw ++ [id]; index := index rlw;
            sessions := sessions rlw ++ [session] |})
    end.

Definition withSessions (ss : list watchSession) (rlw : resourcesListWatcher)
    : resourcesListWatcher :=
  {| ctxEnded := ctxEnded rlw; includeSubresources := includeSubresources rlw;
     clusterName := clusterName rlw; cacheInvalidations := cacheInvalidations rlw;
     resourceVersionI := resourceVersionI rlw; needRelist := needRelist rlw;
     relistAfter := relistAfter rlw; cancels := cancels rlw; index := index rlw;
     sessions := ss |}.

(** [resourceWatch.Stop]. *)
Definition Stop (id : nat) (rlw : resourcesListWatcher) : resourcesListWatcher :=
  withSessions (cancelSession id (sessions rlw)) rlw.

(** The goroutine started by [Watch] for session [id], looked at at time
    [now]: once the context of the session is done it closes the channel,
    and it does nothing else. *)
Definition closeWhenDone (rlw : resourcesListWatcher) (now : Time.Time) (s : watchSession)
    : watchSession :=
  if sessionDone rlw now s
  then {| deadline := deadline s; cancelled := cancelled s;
          results := {| sent := sent (results s); closed := true |} |}
  else s.

Definition sessionGoroutine (now : Time.Time) (id : nat) (rlw : resourcesListWatcher)
    : resourcesListWatcher :=
  withSessions (alter (closeWhenDone rlw now) id (sessions rlw)) rlw.

(** The end of the owning connection: [rlw.ctx] becomes done. *)
Definition endContext (rlw : resourcesListWatcher) : resourcesListWatcher :=
  {| ctxEnded := true; includeSubresources := includeSubresources rlw;
     clusterName := clusterName rlw; cacheInvalidations := cacheInvalidations rlw;
     resourceVersionI := resourceVersionI rlw; needRelist := needRelist rlw;
     relistAfter := relistAfter rlw; cancels := cancels rlw; index := index rlw;
     sessions := sessions rlw |}.

(** ** The relist loop *)

(** What one round of the loop of [NewAPIResourceInformer] does after its
    critical section: leave, sleep for a while, go round again at once
    after a relist, or block in [cond.Wait]. *)
Inductive loopOutcome :=
| LoopExit
| LoopSleep (wait : Time.Duration)
| LoopCycled
| LoopWait.

(** One round of the loop, whose critical section runs at time [now]. *)
Definition relistRound (now : Time.Time) (rlw : resourcesListWatcher)
    : resourcesListWatcher * loopOutcome :=
  if ctxEnded rlw then (rlw, LoopExit)
  else if needRelist rlw then
    if Time.Before now (relistAfter rlw) then
      (rlw, LoopSleep (Time.Sub (relistAfter rlw) now))
    else
      ({| ctxEnded := ctxEnded rlw; includeSubresources := includeSubresources rlw;
          clusterName := clusterName rlw; cacheInvalidations := cacheInvalidations rlw;
          resourceVersionI := resourceVersionI rlw; needRelist := false;
          relistAfter := relistAfter rlw; cancels := cancels rlw; index := index rlw;
          sessions := cancelAll (cancels rlw) (sessions rlw) |}, LoopCycled)
  else (rlw, LoopWait).

(** ** Listing *)

(** What the discovery cache answers to the two queries of [List]: the data
    and the error of [ServerGroupsAndResources] and of
    [ServerPreferredResources].  Data and error may both be present. *)
Record Discovery := {
  groupsAndResources : list APIGroup * list DiscoveredResourceList * option string;
  preferredResources : list DiscoveredResourceList * option string
}.

(** What [List] writes to its logger at error conditions. *)
Inductive LogEntry :=
| LogDiscoveryFailed (err : string)
| LogParseFailed (groupVersion : string)
| LogGap (gap : GapLog).

(** [definersToSlice]: one [Definer] per member of the set, in the order
    the [range] over the set takes. *)
Definition definersToSlice (order : RangeOrder) (asSet : gset objectID) : list Definer :=
  map (λ definer, {| defKind := oidKind definer; defName := oidName definer |})
      (ranged order (elements asSet)).

(** The spec that [enumAPIResourcesLocked] builds for one discovered
    resource. *)
Definition enumSpec (order : RangeOrder) (idx : DefinerIndex) (gv : GroupVersion)
    (rsc : DiscoveredResource) : APIResourceSpec :=
  let rscVersion := if String.eqb (drVersion rsc) "" then gvVersion gv else drVersion rsc in
  let gvr := {| gvrGroup := gvGroup gv; gvrVersion := rscVersion; gvrResource := drName rsc |} in
  let definers := definersToSlice order (definersOf (rscToDefiners idx) gvr) in
  {| Name := drName rsc; SingularName := drSingularName rsc; Namespaced := drNamespaced rsc;
     Group := gvGroup gv; Version := rscVersion; Kind := drKind rsc; Verbs := drVerbs rsc;
     Definers := definers; SubResources := [] |}.

(** [enumAPIResourcesLocked]: the specs handed to the consumer, in order. *)
Definition enumAPIResourcesLocked (order : RangeOrder) (idx : DefinerIndex)
    (gv : GroupVersion) (mrs : list DiscoveredResource) : list APIResourceSpec :=
  map (enumSpec order idx gv) mrs.

(** The consumer that [listWithSubresources] gives to
    [enumAPIResourcesLocked].  [strings.Split] returns at least one piece,
    so [insert] does not panic here (lemma [insert_Split_Some]). *)
Definition insertResource (am : arMap) (ar : APIResourceSpec) : arMap :=
  match insert (Split (Name ar)) ar am with
  | Some am' => am'
  | None => am
  end.

(** [groupToVersion[name]] after the loop over the group list. *)
Definition groupToVersion (groupList : list APIGroup) : gmap string string :=
  foldl (λ m ag, <[agName ag := agPreferredVersion ag]> m) ∅ groupList.

Section Listing.

(** [ksmetav1a1.SchemeGroupVersion.String()]; the constant is declared in
    the API package [pkg/apis/meta/v1alpha1] and is left open here. *)
Variable schemeGroupVersion : string.

(** [specComplete]. *)
Definition specComplete (sp : APIResourceSpec) (resourceVersionS : string)
    (gv : GroupVersion) : APIResource :=
  {| arTypeMeta := {| tmKind := "APIResource"; tmAPIVersion := schemeGroupVersion |};
     arObjectMeta := {| omName := gvGroup gv +:+ ":" +:+ gvVersion gv +:+ ":" +:+ Name sp;
                        omResourceVersion := resourceVersionS |};
     arSpec := sp |}.

(** One round of the loop of [listWithSubresources] over the resource
    lists: the items it appends and what it logs. *)
Definition listGroupWithSubresources (order : RangeOrder) (idx : DefinerIndex)
    (versions : gmap string string) (resourceVersionS : string)
    (group : DiscoveredResourceList) : list APIResource * list LogEntry :=
  match ParseGroupVersion (drlGroupVersion group) with
  | None => ([], [LogParseFailed (drlGroupVersion group)])
  | Some gv =>
      if negb (String.eqb (default "" (versions !! gvGroup gv)) (gvVersion gv)) then ([], [])
      else
        let am := foldl insertResource []
                    (enumAPIResourcesLocked order idx gv (drlAPIResources group)) in
        let '(specs, gaps) := toList order [] am in
        (map (λ sp, specComplete sp resourceVersionS gv) specs, map LogGap gaps)
  end.

(** [listWithSubresources]; the last component is the returned error. *)
Definition listWithSubresources (order : RangeOrder) (disc : Discovery)
    (resourceVersionS : string) (rlw : resourcesListWatcher)
    : list APIResource * list LogEntry * option string :=
  let '(groupList, resourceList, err) := groupsAndResources disc in
  let failure := match err with Some e => [LogDiscoveryFailed e] | None => [] end in
  let versions := groupToVersion groupList in
  let '(ans, logs) :=
    joinRuns (map (listGroupWithSubresources order (index rlw) versions resourceVersionS)
                  resourceList) in
  (ans, failure ++ logs, None).

(** One round of the loop of [listSansSubresources]. *)
Definition listGroupSansSubresources (order : RangeOrder) (idx : DefinerIndex)
    (resourceVersionS : string) (group : DiscoveredResourceList)
    : list APIResource * list LogEntry :=
  match ParseGroupVersion (drlGroupVersion group) with
  | None => ([], [LogParseFailed (drlGroupVersion group)])
  | Some gv =>
      (map (λ sp, specComplete sp resourceVersionS gv)
           (enumAPIResourcesLocked order idx gv (drlAPIResources group)), [])
  end.

(** [listSansSubresources]. *)
Definition listSansSubresources (order : RangeOrder) (disc : Discovery)
    (resourceVersionS : string) (rlw : resourcesListWatcher)
    : list APIResource * list LogEntry * option string :=
  let '(groupList, err) := preferredResources disc in
  let failure := match err with Some e => [LogDiscoveryFailed e] | None => [] end in
  let '(ans, logs) :=
    joinRuns (map (listGroupSansSubresources order (index rlw) resourceVersionS) groupList) in
  (ans, failure ++ logs, None).

(** The first critical section of [List]: advance the version and cancel
    every tracked session. *)
Definition listAdvance (rlw : resourcesListWatcher) : Z * resourcesListWatcher :=
  let version := Int64.add (resourceVersionI rlw) 1 in
  (version,
   {| ctxEnded := ctxEnded rlw; includeSubresources := includeSubresources rlw;
      clusterName := clusterName rlw; cacheInvalidations := cacheInvalidations rlw;
      resourceVersionI := version; needRelist := needRelist rlw;
      relistAfter := relistAfter rlw; cancels := cancels rlw; index := index rlw;
      sessions := cancelAll (cancels rlw) (sessions rlw) |}).

(** What a [List] call gives back: the collection, the error, and what
    it logged. *)
Record listResult := {
  listed : APIResourceList;
  listError : option string;
  listLog : list LogEntry
}.

(** [List], with [order] the order its map ranges take and [disc] what
    the discovery cache answers. *)
Definition List (order : RangeOrder) (disc : Discovery) (rlw : resourcesListWatcher)
    : listResult * resourcesListWatcher :=
  let '(version, rlw') := listAdvance rlw in
  let resourceVersionS := FormatInt version in
  let '(items, logs, err) :=
    if includeSubresources rlw' then listWithSubresources order disc resourceVersionS rlw'
    else listSansSubresources order disc resourceVersionS rlw' in
  ({| listed := {| arlTypeMeta := {| tmKind := "APIResourceList";
                                     tmAPIVersion := schemeGroupVersion |};
                   arlResourceVersion := resourceVersionS;
                   arlItems := items |};
      listError := err; listLog := logs |}, rlw').

End Listing.

(** ** Runs of the catalog *)

(** The calls and happenings that change the catalog state. *)
Inductive action :=
| ActList (schemeGroupVersion : string) (order : RangeOrder) (disc : Discovery)
| ActWatch (now : Time.Time) (opts : ListOptions)
| ActInvalidate (now : Time.Time)
| ActInvalidateWithDefiner (now : Time.Time) (obj : option Object)
    (supplier : option ResourceDefinitionSupplier) (set : bool)
| ActRelistRound (now : Time.Time)
| ActStop (id : nat)
| ActSessionGoroutine (now : Time.Time) (id : nat)
| ActEndContext.

Definition perform (a : action) (rlw : resourcesListWatcher) : resourcesListWatcher :=
  match a with
  | ActList sgv order disc => snd (List sgv order disc rlw)
  | ActWatch now opts => snd (Watch now opts rlw)
  | ActInvalidate now => fst (Invalidate now rlw)
  | ActInvalidateWithDefiner now obj supplier set =>
      fst (InvalidateWithDefiner now obj supplier set rlw)
  | ActRelistRound now => fst (relistRound now rlw)
  | ActStop id => Stop id rlw
  | ActSessionGoroutine now id => sessionGoroutine now id rlw
  | ActEndContext => endContext rlw
  end.

Definition run (actions : list action) (rlw : resourcesListWatcher) : resourcesListWatcher :=
  foldl (λ st a, perform a st) rlw actions.

(** Whether an action is one of the calls that advance the version. *)
Definition advancesVersion (a : action) : bool :=
  match a with
  | ActList _ _ _ | ActInvalidate _ | ActInvalidateWithDefiner _ _ _ _ => true
  | _ => false
  end.

Definition isList (a : action) : bool :=
  match a with ActList _ _ _ => true | _ => false end.

(** The list versions stamped on the collections that the [List] calls of a
    run return, in the order of the calls. *)
Fixpoint stampedVersions (actions : list action) (rlw : resourcesListWatcher) : list string :=
  match actions with
  | [] => []
  | a :: rest =>
      match a with
      | ActList sgv order disc =>
          arlResourceVersion (listed (fst (List sgv order disc rlw)))
          :: stampedVersions rest (perform a rlw)
      | _ => stampedVersions rest (perform a rlw)
      end
  end.


(** The resource lists that [List] works on: those of
    [ServerGroupsAndResources] when subresources are included, those of
    [ServerPreferredResources] otherwise. *)
Definition resourceFeed (disc : Discovery) (withSubresources : bool)
    : list DiscoveredResourceList :=
  if withSubresources then snd (fst (groupsAndResources disc))
  else fst (preferredResources disc).

(** What [List] does with one resource list of the feed. *)
Definition listGroup (sgv : string) (order : RangeOrder) (disc : Discovery)
    (resourceVersionS : string) (rlw : resourcesListWatcher)
    : DiscoveredResourceList → list APIResource * list LogEntry :=
  if includeSubresources rlw
  then listGroupWithSubresources sgv order (index rlw)
         (groupToVersion (fst (fst (groupsAndResources disc)))) resourceVersionS
  else listGroupSansSubresources sgv order (index rlw) resourceVersionS.











(** A session on whose channel nothing has been sent. *)
Definition quiet (s : watchSession) : Prop := sent (results s) = [].

(** Session [id] has reached end-of-stream: its channel is closed and
    nothing was ever sent on it. *)
Definition endOfStream (id : nat) (rlw : resourcesListWatcher) : Prop :=
  ∃ s, sessions rlw !! id = Some s ∧ closed (results s) = true ∧ sent (results s) = [].

(** Every session made so far has its cancel function in [cancels]. *)
Definition tracked (rlw : resourcesListWatcher) : Prop :=
  cancels rlw = seq 0 (length (sessions rlw)).

Definition noEmptyEntry (m : gmap GroupVersionResource (gset objectID)) : Prop :=
  ∀ r, m !! r ≠ Some ∅.

(** ** Further notions used by the properties *)

(** The number of version-advancing calls in a run. *)
Definition advances (actions : list action) : Z :=
  Z.of_nat (length (List.filter advancesVersion actions)).

(** The handles given out along a run: the ids of the sessions made by its
    successful [Watch] calls, in order. *)
Fixpoint handlesGiven (actions : list action) (rlw : resourcesListWatcher) : list nat :=
  match actions with
  | [] => []
  | a :: rest =>
      match a with
      | ActWatch now opts =>
          match fst (Watch now opts rlw) with
          | WatchHandle id => id :: handlesGiven rest (perform a rlw)
          | _ => handlesGiven rest (perform a rlw)
          end
      | _ => handlesGiven rest (perform a rlw)
      end
  end.

(** Whether something in a run calls cancel functions: a [List], a round
    of the relist loop, or a [Stop]. *)
Definition mayCancel (a : action) : bool :=
  match a with
  | ActList _ _ _ | ActRelistRound _ | ActStop _ => true
  | _ => false
  end.

(** No goroutine of a session looks at its context later than [horizon]. *)
Definition goroutinesBy (horizon : Time.Time) (actions : list action) : Prop :=
  Forall (λ a, match a with
               | ActSessionGoroutine now _ => now ≤ horizon
               | _ => True
               end) actions.

(** [am[step0].subresources[step1]...]: the node that a path leads to. *)
Fixpoint nodeAt (path : list string) (am : arMap) : option arTuple :=
  match path with
  | [] => None
  | step :: rest =>
      match lookupStep step am with
      | None => None
      | Some art =>
          match rest with
          | [] => Some art
          | _ :: _ => nodeAt rest (subresources art)
          end
      end
  end.

(** The spec stored at a path, if the path leads to a node that has one. *)
Definition specAt (path : list string) (am : arMap) : option APIResourceSpec :=
  match nodeAt path am with
  | Some art => spec art
  | None => None
  end.

(** The steps of a map whose nodes have a spec of their own. *)
Definition specNames (am : arMap) : list string :=
  flat_map (λ entry, match spec (snd entry) with
                     | Some _ => [fst entry]
                     | None => []
                     end) am.

(** A tree in which, at every level, no step occurs twice: what a Go map
    gives for free. *)
Inductive keyed : arTuple → Prop :=
| Keyed (sp : option APIResourceSpec) (subs : arMap) :
    NoDup (map fst subs) → Forall (λ entry, keyed (snd entry)) subs →
    keyed {| spec := sp; subresources := subs |}.

Definition mapKeyed (am : arMap) : Prop :=
  NoDup (map fst am) ∧ Forall (λ entry, keyed (snd entry)) am.

(** The tree that [listWithSubresources] builds for one resource list. *)
Definition groupTree (order : RangeOrder) (idx : DefinerIndex) (gv : GroupVersion)
    (mrs : list DiscoveredResource) : arMap :=
  foldl insertResource [] (enumAPIResourcesLocked order idx gv mrs).

(** The [Definer] that [definersToSlice] makes of an [objectID]. *)
Definition toDefiner (definer : objectID) : Definer :=
  {| defKind := oidKind definer; defName := oidName definer |}.

(** * Properties *)

(** ** The version counter and [Watch] *)

Lemma FormatInt_inj (a b : Z) : FormatInt a = FormatInt b → a = b.
Proof.
  unfold FormatInt. intros E.
  assert (N : ∀ z, Z.to_int z ≠ Decimal.Pos Decimal.Nil ∧ Z.to_int z ≠ Decimal.Neg Decimal.Nil).
  { intros [|p|p]; simpl; split; try discriminate;
      intros H; injection H; apply DecimalPos.Unsigned.to_uint_nonnil. }
  apply to_int_inj.
  destruct (N a) as [Ha1 Ha2], (N b) as [Hb1 Hb2].
  pose proof (NilZero.isi _ Ha1 Ha2) as Ia.
  pose proof (NilZero.isi _ Hb1 Hb2) as Ib.
  rewrite E in Ia. rewrite Ia in Ib. by injection Ib.
Qed.

Lemma wrap_in_range (z : Z) : Int64.in_range z → Int64.wrap z = z.
Proof.
  unfold Int64.in_range, Int64.wrap, Int64.modulus, Int64.min_int, Int64.max_int.
  intros H. rewrite Z.mod_small; lia.
Qed.

Lemma add_one_no_overflow (v : Z) :
  Int64.min_int ≤ v → v < Int64.max_int → Int64.add v 1 = v + 1.
Proof.
  intros H1 H2. unfold Int64.add. apply wrap_in_range.
  unfold Int64.in_range, Int64.min_int, Int64.max_int in *. lia.
Qed.

Lemma Watch_mismatch now opts rlw :
  ResourceVersion opts ≠ FormatInt (resourceVersionI rlw) →
  Watch now opts rlw =
    (WatchError (NewResourceExpired
       ("Requested version " +:+ ResourceVersion opts +:+ ", have version "
        +:+ FormatInt (resourceVersionI rlw) +:+ " in cluster " +:+ clusterName rlw)), rlw).
Proof.
  intros Hne. unfold Watch.
  destruct (String.eqb_spec (FormatInt (resourceVersionI rlw)) (ResourceVersion opts)) as [E|_];
    [by rewrite E in Hne | done].
Qed.

Lemma Watch_match now opts rlw :
  ResourceVersion opts = FormatInt (resourceVersionI rlw) →
  Watch now opts rlw =
    match TimeoutSeconds opts with
    | None => (WatchPanic, rlw)
    | Some seconds =>
        (WatchHandle (length (sessions rlw)),
         {| ctxEnded := ctxEnded rlw; includeSubresources := includeSubresources rlw;
            clusterName := clusterName rlw; cacheInvalidations := cacheInvalidations rlw;
            resourceVersionI := resourceVersionI rlw; needRelist := needRelist rlw;
            relistAfter := relistAfter rlw;
            cancels := cancels rlw ++ [length (sessions rlw)]; index := index rlw;
            sessions := sessions rlw ++
              [ {| deadline := Time.Add now (Int64.mul seconds Time.Second);
                   cancelled := false; results := {| sent := []; closed := false |} |} ] |})
    end.
Proof.
  intros E. unfold Watch. rewrite E, String.eqb_refl. done.
Qed.

(** C1, as stated, fails: with the current version and no timeout in the
    options, [Watch] neither returns a handle nor an error, it panics. *)
Lemma Watch_current_version_without_timeout :
  let rlw := newWatcher "cluster" true in
  let opts := {| ResourceVersion := "1"; TimeoutSeconds := None |} in
  ResourceVersion opts = FormatInt (resourceVersionI rlw)
  ∧ fst (Watch 0 opts rlw) = WatchPanic
  ∧ ∀ id, fst (Watch 0 opts rlw) ≠ WatchHandle id.
Proof. repeat split. intros id; vm_compute; discriminate. Qed.

(** C1 (amended): a [Watch] call whose resource version differs from the
    decimal string of the current version counter returns the
    resource-expired error and leaves the state as it was, so no session is
    made; a call whose resource version is equal and whose options carry a
    timeout returns a handle with a nil error and registers exactly one new
    session. *)
Theorem Watch_checks_version now opts rlw :
  (ResourceVersion opts ≠ FormatInt (resourceVersionI rlw) →
     ∃ message, Watch now opts rlw = (WatchError (NewResourceExpired message), rlw))
  ∧ (ResourceVersion opts = FormatInt (resourceVersionI rlw) →
     ∀ seconds, TimeoutSeconds opts = Some seconds →
     ∃ session rlw',
       Watch now opts rlw = (WatchHandle (length (sessions rlw)), rlw')
       ∧ sessions rlw' = sessions rlw ++ [session]
       ∧ cancels rlw' = cancels rlw ++ [length (sessions rlw)]
       ∧ resourceVersionI rlw' = resourceVersionI rlw).
Proof.
  split.
  - intros Hne. eexists. by apply Watch_mismatch.
  - intros E seconds Ht. rewrite (Watch_match _ _ _ E), Ht.
    eexists _, _. split; [reflexivity|]. done.
Qed.

Lemma Watch_checks_version_witness :
  (∃ message, Watch 7 {| ResourceVersion := "0"; TimeoutSeconds := Some 30 |}
                (newWatcher "cluster" true)
              = (WatchError (NewResourceExpired message), newWatcher "cluster" true))
  ∧ (∃ session rlw',
       Watch 7 {| ResourceVersion := "1"; TimeoutSeconds := Some 30 |}
         (newWatcher "cluster" true) = (WatchHandle 0, rlw')
       ∧ sessions rlw' = [session]).
Proof.
  split.
  - apply (proj1 (Watch_checks_version 7 {| ResourceVersion := "0"; TimeoutSeconds := Some 30 |}
                    (newWatcher "cluster" true))).
    vm_compute. discriminate.
  - destruct (proj2 (Watch_checks_version 7 {| ResourceVersion := "1"; TimeoutSeconds := Some 30 |}
                       (newWatcher "cluster" true)) eq_refl 30 eq_refl)
      as (session & rlw' & E & Hs & _).
    exists session, rlw'. split; [exact E | exact Hs].
Defined.

(** C10: a [Watch] call with the current version and a nil [TimeoutSeconds]
    panics on the dereference, with the state untouched; so whenever [Watch]
    returns a handle the caller had supplied a timeout. *)
Theorem Watch_nil_timeout_panics now opts rlw :
  ResourceVersion opts = FormatInt (resourceVersionI rlw) →
  (TimeoutSeconds opts = None → Watch now opts rlw = (WatchPanic, rlw))
  ∧ (∀ id, fst (Watch now opts rlw) = WatchHandle id → TimeoutSeconds opts ≠ None).
Proof.
  intros E. rewrite (Watch_match _ _ _ E).
  destruct (TimeoutSeconds opts); split; done.
Qed.

Lemma Watch_nil_timeout_panics_witness :
  Watch 3 {| ResourceVersion := "1"; TimeoutSeconds := None |} (newWatcher "cluster" false)
  = (WatchPanic, newWatcher "cluster" false).
Proof.
  apply (proj1 (Watch_nil_timeout_panics 3 {| ResourceVersion := "1"; TimeoutSeconds := None |}
                  (newWatcher "cluster" false) eq_refl)).
  reflexivity.
Defined.

Lemma List_state sgv order disc rlw :
  snd (List sgv order disc rlw) = snd (listAdvance rlw).
Proof.
  unfold List. simpl.
  by destruct (if includeSubresources rlw then _ else _) as [[? ?] ?].
Qed.

Lemma List_stamp sgv order disc rlw :
  arlResourceVersion (listed (fst (List sgv order disc rlw)))
  = FormatInt (Int64.add (resourceVersionI rlw) 1).
Proof.
  unfold List. simpl.
  by destruct (if includeSubresources rlw then _ else _) as [[? ?] ?].
Qed.

Lemma invalidate_version now obj supplier set rlw :
  resourceVersionI (fst (invalidateWithDefinerLocked now obj supplier set rlw))
  = Int64.add (resourceVersionI rlw) 1.
Proof.
  unfold invalidateWithDefinerLocked.
  destruct obj as [o|], supplier as [sup|]; try done.
  destruct (ToAPIVersionAndKind _) as [apiVersion kind]. simpl.
  destruct (String.eqb apiVersion ""); [done|].
  by destruct (String.eqb kind "").
Qed.

Lemma relistRound_version now rlw :
  resourceVersionI (fst (relistRound now rlw)) = resourceVersionI rlw.
Proof.
  unfold relistRound.
  destruct (ctxEnded rlw); [done|]. destruct (needRelist rlw); [|done].
  by destruct (Time.Before _ _).
Qed.

Lemma Watch_version now opts rlw :
  resourceVersionI (snd (Watch now opts rlw)) = resourceVersionI rlw.
Proof.
  unfold Watch. destruct (negb _); [done|]. by destruct (TimeoutSeconds opts).
Qed.

Lemma perform_version a rlw :
  resourceVersionI (perform a rlw)
  = if advancesVersion a then Int64.add (resourceVersionI rlw) 1 else resourceVersionI rlw.
Proof.
  destruct a; unfold perform, advancesVersion, Invalidate, InvalidateWithDefiner.
  - by rewrite List_state.
  - apply Watch_version.
  - apply invalidate_version.
  - apply invalidate_version.
  - apply relistRound_version.
  - done.
  - done.
  - done.
Qed.

Lemma stampedVersions_cons a rest rlw :
  stampedVersions (a :: rest) rlw
  = if isList a
    then FormatInt (Int64.add (resourceVersionI rlw) 1) :: stampedVersions rest (perform a rlw)
    else stampedVersions rest (perform a rlw).
Proof. destruct a; try done. cbn [stampedVersions isList]. by rewrite List_stamp. Qed.

Lemma add_one_changes (v : Z) : Int64.in_range v → Int64.add v 1 ≠ v.
Proof.
  unfold Int64.in_range, Int64.add, Int64.wrap, Int64.modulus, Int64.min_int, Int64.max_int.
  intros H. destruct (Z.eq_dec v (2 ^ 63 - 1)) as [->|Hne]; [by vm_compute|].
  rewrite Z.mod_small; lia.
Qed.

(** A version superseded by a later [List] is stale: [Watch] refuses it. *)
Lemma Watch_superseded_version now timeout sgv order disc rlw :
  Int64.in_range (resourceVersionI rlw) →
  ∃ message,
    fst (Watch now {| ResourceVersion := FormatInt (resourceVersionI rlw);
                      TimeoutSeconds := timeout |}
           (snd (List sgv order disc rlw)))
    = WatchError (NewResourceExpired message).
Proof.
  intros Hr. eexists. rewrite Watch_mismatch; [reflexivity|].
  rewrite List_state. simpl. intros E%FormatInt_inj.
  by apply (add_one_changes _ Hr).
Qed.

(** The end of the [int64] range is reached by a run, if a long one. *)
Lemma version_after_invalidations cluster withSubresources (n : nat) :
  1 + Z.of_nat n ≤ Int64.max_int →
  resourceVersionI (run (repeat (ActInvalidate 0) n) (newWatcher cluster withSubresources))
  = 1 + Z.of_nat n.
Proof.
  intros Hmax.
  cut (∀ rlw, Int64.min_int ≤ resourceVersionI rlw →
              resourceVersionI rlw + Z.of_nat n ≤ Int64.max_int →
              resourceVersionI (run (repeat (ActInvalidate 0) n) rlw)
              = resourceVersionI rlw + Z.of_nat n).
  { intros H. apply (H (newWatcher cluster withSubresources)); [by vm_compute | done]. }
  clear Hmax. induction n as [|n IH]; intros rlw Hmin Hmax.
  - simpl. lia.
  - change (run (repeat (ActInvalidate 0) (S n)) rlw)
      with (run (repeat (ActInvalidate 0) n) (perform (ActInvalidate 0) rlw)).
    pose proof (perform_version (ActInvalidate 0) rlw) as Hv. cbn [advancesVersion] in Hv.
    rewrite add_one_no_overflow in Hv by lia.
    rewrite IH; lia.
Qed.

(** C2, as stated, fails at the end of the [int64] range: the counter wraps
    around, so a [List] call can return a version below the one before it. *)
Lemma List_version_wraps_around :
  let rlw := fst (Invalidate 0 (newWatcher "cluster" true)) in
  let full :=
    {| ctxEnded := ctxEnded rlw; includeSubresources := includeSubresources rlw;
       clusterName := clusterName rlw; cacheInvalidations := cacheInvalidations rlw;
       resourceVersionI := 9223372036854775807; needRelist := needRelist rlw;
       relistAfter := relistAfter rlw; cancels := cancels rlw; index := index rlw;
       sessions := sessions rlw |} in
  let disc := {| groupsAndResources := ([], [], None); preferredResources := ([], None) |} in
  resourceVersionI (snd (List "v1" orderAsStored disc full)) < resourceVersionI full
  ∧ arlResourceVersion (listed (fst (List "v1" orderAsStored disc full)))
    = "-9223372036854775808".
Proof. split; reflexivity. Qed.

(** C2 (amended): while the counter stays below the largest [int64], every
    [List], [Invalidate] and [InvalidateWithDefiner] call advances it by
    exactly one and nothing else changes it; each [List] stamps its
    collection with the decimal string of the advanced counter; so along
    every run the stamped versions strictly increase, all lie above the
    version at the start and none exceeds the version at the end. *)
Theorem version_strictly_increases actions rlw :
  Int64.min_int ≤ resourceVersionI rlw →
  resourceVersionI rlw + Z.of_nat (length (List.filter advancesVersion actions))
    ≤ Int64.max_int →
  ∃ versions,
    stampedVersions actions rlw = map FormatInt versions
    ∧ StronglySorted Z.lt (resourceVersionI rlw :: versions)
    ∧ Forall (λ v, v ≤ resourceVersionI (run actions rlw)) versions
    ∧ resourceVersionI (run actions rlw)
      = resourceVersionI rlw + Z.of_nat (length (List.filter advancesVersion actions)).
Proof.
  revert rlw. induction actions as [|a rest IH]; intros rlw Hmin Hmax.
  - exists []. simpl. repeat split; try lia; [|constructor].
    constructor; constructor.
  - pose proof (perform_version a rlw) as Hv.
    pose proof (stampedVersions_cons a rest rlw) as Hcons.
    change (run (a :: rest) rlw) with (run rest (perform a rlw)).
    cbn [List.filter] in *.
    destruct (advancesVersion a) eqn:Ha.
    + cbn [length] in Hmax. rewrite add_one_no_overflow in Hv by lia.
      destruct (IH (perform a rlw)) as (vs & Hst & Hsorted & Hle & Hfin); [lia..|].
      rewrite Hv in Hsorted, Hfin.
      pose proof (StronglySorted_inv Hsorted) as [Hs Hall].
      assert (Hbelow : StronglySorted Z.lt (resourceVersionI rlw :: vs)).
      { constructor; [done|]. eapply Forall_impl; [exact Hall|]. simpl. lia. }
      destruct (isList a) eqn:Hl.
      * exists (resourceVersionI rlw + 1 :: vs).
        rewrite Hcons, Hst, add_one_no_overflow by lia.
        repeat split.
        -- constructor; [done|]. constructor; [lia|].
           eapply Forall_impl; [exact Hall|]. simpl. lia.
        -- constructor; [lia|done].
        -- cbn [length]. lia.
      * exists vs. rewrite Hcons, Hst.
        repeat split; try done. cbn [length]. lia.
    + destruct (IH (perform a rlw)) as (vs & Hst & Hsorted & Hle & Hfin); [lia..|].
      rewrite Hv in Hsorted, Hfin.
      assert (Hl : isList a = false) by (by destruct a).
      exists vs. rewrite Hcons, Hl, Hst. done.
Qed.

Lemma version_strictly_increases_witness :
  let disc := {| groupsAndResources := ([], [], Some "unreachable");
                 preferredResources := ([], None) |} in
  let actions := [ActList "v1" orderAsStored disc; ActInvalidate 5;
                  ActList "v1" orderReversed disc] in
  ∃ versions,
    stampedVersions actions (newWatcher "cluster" true) = map FormatInt versions
    ∧ StronglySorted Z.lt (1 :: versions).
Proof.
  intros disc actions.
  destruct (version_strictly_increases actions (newWatcher "cluster" true))
    as (versions & Hst & Hsorted & _).
  - vm_compute. discriminate.
  - vm_compute. discriminate.
  - exists versions. split; [exact Hst | exact Hsorted].
Defined.

(** ** Discovery failures *)


(** ** The definer index *)

Section DefinerIndexFacts.

Implicit Types (m : gmap GroupVersionResource (gset objectID)).
Implicit Types (id d : objectID) (r : GroupVersionResource).

Lemma definersOf_dropDefiner id r m r' :
  definersOf (dropDefiner id r m) r'
  = if decide (r = r') then definersOf m r' ∖ {[id]} else definersOf m r'.
Proof.
  unfold dropDefiner, definersOf.
  destruct (decide (r = r')) as [<-|Hne].
  - destruct (m !! r) as [ds|] eqn:E; simpl.
    + destruct (decide (ds ∖ {[id]} = ∅)) as [He|He].
      * by rewrite lookup_delete_eq, He.
      * by rewrite lookup_insert_eq.
    + rewrite E. simpl. set_solver.
  - destruct (m !! r) as [ds|] eqn:E; [|done].
    destruct (decide (ds ∖ {[id]} = ∅)).
    + by rewrite lookup_delete_ne.
    + by rewrite lookup_insert_ne.
Qed.

Lemma noEmptyEntry_dropDefiner id r m :
  noEmptyEntry m → noEmptyEntry (dropDefiner id r m).
Proof.
  intros Hm r'. unfold dropDefiner.
  destruct (m !! r) as [ds|] eqn:E; [|apply Hm].
  destruct (decide (ds ∖ {[id]} = ∅)) as [He|He].
  - destruct (decide (r = r')) as [<-|Hne].
    + by rewrite lookup_delete_eq.
    + rewrite lookup_delete_ne by done. apply Hm.
  - destruct (decide (r = r')) as [<-|Hne].
    + rewrite lookup_insert_eq. congruence.
    + rewrite lookup_insert_ne by done. apply Hm.
Qed.

Lemma definersOf_addDefiner id r m r' :
  definersOf (addDefiner id r m) r'
  = if decide (r = r') then {[id]} ∪ definersOf m r' else definersOf m r'.
Proof.
  unfold addDefiner. unfold definersOf at 1.
  destruct (decide (r = r')) as [<-|Hne].
  - by rewrite lookup_insert_eq.
  - by rewrite lookup_insert_ne.
Qed.

Lemma noEmptyEntry_addDefiner id r m :
  noEmptyEntry m → noEmptyEntry (addDefiner id r m).
Proof.
  intros Hm r'. unfold addDefiner.
  destruct (decide (r = r')) as [<-|Hne].
  - rewrite lookup_insert_eq. intros [= He]. set_solver.
  - rewrite lookup_insert_ne by done. apply Hm.
Qed.

Lemma definersOf_foldr_drop id (l : list GroupVersionResource) m r :
  definersOf (foldr (dropDefiner id) m l) r
  = if decide (r ∈ l) then definersOf m r ∖ {[id]} else definersOf m r.
Proof.
  induction l as [|x l IH]; simpl.
  - destruct (decide (r ∈ [])) as [Hin|_]; [by apply elem_of_nil in Hin | done].
  - rewrite definersOf_dropDefiner, IH.
    destruct (decide (x = r)) as [->|Hne].
    + destruct (decide (r ∈ r :: l)) as [_|Hn]; [|set_solver].
      destruct (decide (r ∈ l)); set_solver.
    + destruct (decide (r ∈ l)), (decide (r ∈ x :: l)); set_solver.
Qed.

Lemma noEmptyEntry_foldr_drop id (l : list GroupVersionResource) m :
  noEmptyEntry m → noEmptyEntry (foldr (dropDefiner id) m l).
Proof. intros Hm. induction l; simpl; [done|]. by apply noEmptyEntry_dropDefiner. Qed.

Lemma definersOf_foldr_add id (l : list GroupVersionResource) m r :
  definersOf (foldr (addDefiner id) m l) r
  = if decide (r ∈ l) then {[id]} ∪ definersOf m r else definersOf m r.
Proof.
  induction l as [|x l IH]; simpl.
  - destruct (decide (r ∈ [])) as [Hin|_]; [by apply elem_of_nil in Hin | done].
  - rewrite definersOf_addDefiner, IH.
    destruct (decide (x = r)) as [->|Hne].
    + destruct (decide (r ∈ r :: l)) as [_|Hn]; [|set_solver].
      destruct (decide (r ∈ l)); set_solver.
    + destruct (decide (r ∈ l)), (decide (r ∈ x :: l)); set_solver.
Qed.

Lemma noEmptyEntry_foldr_add id (l : list GroupVersionResource) m :
  noEmptyEntry m → noEmptyEntry (foldr (addDefiner id) m l).
Proof. intros Hm. induction l; simpl; [done|]. by apply noEmptyEntry_addDefiner. Qed.

Lemma resourcesOf_setDefinerLocked id enumr idx d :
  resourcesOf (definerToRscs (setDefinerLocked id enumr idx)) d
  = if decide (id = d) then list_to_set enumr else resourcesOf (definerToRscs idx) d.
Proof.
  unfold setDefinerLocked, resourcesOf. simpl.
  destruct (decide (list_to_set enumr = ∅)) as [He|He].
  - destruct (decide (id = d)) as [<-|Hne].
    + rewrite lookup_delete_eq. simpl. by rewrite He.
    + by rewrite lookup_delete_ne.
  - destruct (decide (id = d)) as [<-|Hne].
    + by rewrite lookup_insert_eq.
    + by rewrite lookup_insert_ne.
Qed.

Lemma setDefinerLocked_mirrored id enumr idx :
  mirrored idx → mirrored (setDefinerLocked id enumr idx).
Proof.
  intros Hm d r. rewrite resourcesOf_setDefinerLocked.
  unfold setDefinerLocked. simpl.
  rewrite definersOf_foldr_add, definersOf_foldr_drop.
  pose proof (Hm d r) as Hdr. pose proof (Hm id r) as Hid.
  set (old := resourcesOf (definerToRscs idx) id) in *.
  set (new := list_to_set enumr : gset GroupVersionResource) in *.
  set (X := definersOf (rscToDefiners idx) r) in *.
  clearbody old new X.
  destruct (decide (r ∈ elements (new ∖ old))) as [Ha|Ha];
    destruct (decide (r ∈ elements (old ∖ new))) as [Hd|Hd];
    rewrite elem_of_elements in Ha; rewrite elem_of_elements in Hd;
    destruct (decide (id = d)) as [Heq|Hne]; subst;
    destruct (decide (r ∈ old)), (decide (r ∈ new)); set_solver.
Qed.

Lemma setDefinerLocked_pruned id enumr idx :
  pruned idx → pruned (setDefinerLocked id enumr idx).
Proof.
  intros [Hr Hd]. split.
  - unfold setDefinerLocked. simpl.
    by apply noEmptyEntry_foldr_add, noEmptyEntry_foldr_drop.
  - intros d. unfold setDefinerLocked. simpl.
    destruct (decide (list_to_set enumr = ∅)) as [He|He].
    + destruct (decide (id = d)) as [<-|Hne].
      * by rewrite lookup_delete_eq.
      * rewrite lookup_delete_ne by done. apply Hd.
    + destruct (decide (id = d)) as [<-|Hne].
      * rewrite lookup_insert_eq. congruence.
      * rewrite lookup_insert_ne by done. apply Hd.
Qed.

End DefinerIndexFacts.

Lemma invalidate_index now obj supplier set rlw :
  index (fst (invalidateWithDefinerLocked now obj supplier set rlw)) = index rlw
  ∨ ∃ id enumr,
      index (fst (invalidateWithDefinerLocked now obj supplier set rlw))
      = setDefinerLocked id enumr (index rlw).
Proof.
  unfold invalidateWithDefinerLocked.
  destruct obj as [o|], supplier as [sup|]; try (by left).
  destruct (ToAPIVersionAndKind _) as [apiVersion kind]. simpl.
  destruct (String.eqb apiVersion ""); [by left|].
  destruct (String.eqb kind ""); [by left|].
  right. by eexists _, _.
Qed.

Lemma perform_index a rlw :
  index (perform a rlw) = index rlw
  ∨ ∃ id enumr, index (perform a rlw) = setDefinerLocked id enumr (index rlw).
Proof.
  destruct a; unfold perform, Invalidate, InvalidateWithDefiner.
  - left. by rewrite List_state.
  - left. unfold Watch. destruct (negb _); [done|]. by destruct (TimeoutSeconds opts).
  - apply invalidate_index.
  - apply invalidate_index.
  - left. unfold relistRound.
    destruct (ctxEnded rlw); [done|]. destruct (needRelist rlw); [|done].
    by destruct (Time.Before _ _).
  - by left.
  - by left.
  - by left.
Qed.

(** C3: in the catalog made by [NewAPIResourceInformer], after every run of
    [InvalidateWithDefiner] calls (and of any other calls in between), the
    two mappings of the definer index mirror each other, a definer [d]
    being in the set mapped from a resource [r] exactly when [r] is in the
    set mapped from [d], and neither mapping holds an entry with an empty
    set. *)
Theorem definer_index_mirrored cluster withSubresources actions :
  let rlw := run actions (newWatcher cluster withSubresources) in
  (∀ d r, d ∈ definersOf (rscToDefiners (index rlw)) r
          ↔ r ∈ resourcesOf (definerToRscs (index rlw)) d)
  ∧ (∀ r, rscToDefiners (index rlw) !! r ≠ Some ∅)
  ∧ (∀ d, definerToRscs (index rlw) !! d ≠ Some ∅).
Proof.
  cut (∀ rlw0, mirrored (index rlw0) → pruned (index rlw0) →
         mirrored (index (run actions rlw0)) ∧ pruned (index (run actions rlw0))).
  { intros H. destruct (H (newWatcher cluster withSubresources)) as [Hm [Hp1 Hp2]].
    - intros d r. unfold definersOf, resourcesOf. simpl.
      by rewrite !lookup_empty.
    - split; intros k; simpl; by rewrite lookup_empty.
    - simpl. split; [exact Hm|]. by split. }
  induction actions as [|a rest IH]; intros rlw0 Hm Hp; [done|].
  change (run (a :: rest) rlw0) with (run rest (perform a rlw0)).
  apply IH.
  - destruct (perform_index a rlw0) as [->|(id & enumr & ->)]; [done|].
    by apply setDefinerLocked_mirrored.
  - destruct (perform_index a rlw0) as [->|(id & enumr & ->)]; [done|].
    by apply setDefinerLocked_pruned.
Qed.

(** ** The subresource tree builder *)




Lemma Split_nonempty (s : string) : Split s ≠ [].
Proof.
  destruct s as [|c rest]; simpl; [done|].
  destruct (Ascii.eqb c slash); [done|]. by destruct (Split rest).
Qed.

Lemma insert_Some (name0 : string) (rest : list string) sp am :
  is_Some (insert (name0 :: rest) sp am).
Proof.
  revert name0 am. induction rest as [|name1 rest IH]; intros name0 am; simpl; [done|].
  destruct (IH name1 (subresources
    (match lookupStep name0 am with
     | Some art => art
     | None => {| spec := None; subresources := [] |}
     end))) as [subs Hs].
  simpl in Hs. rewrite Hs. done.
Qed.

Lemma insert_Split_Some (s : string) sp am : is_Some (insert (Split s) sp am).
Proof.
  destruct (Split s) as [|name0 rest] eqn:E; [by apply Split_nonempty in E|].
  apply insert_Some.
Qed.

Lemma toListEntry_gap order prefix name subs :
  toListEntry order prefix name {| spec := None; subresources := subs |}
  = ([], [ {| gapPrefix := prefix; gapName := name |} ]).
Proof. reflexivity. Qed.

Lemma toListEntry_node order prefix name sp subs :
  toListEntry order prefix name {| spec := Some sp; subresources := subs |}
  = (let '(subSpecs, logs) := toList order (prefix ++ [name]) subs in
     ([withSubResources (withName sp name) (SubResources sp ++ subSpecs)], logs)).
Proof.
  unfold toList, toListRounds. cbn [toListEntry].
  replace ((fix each (am : arMap) : list (list APIResourceSpec * list GapLog) :=
              match am with
              | [] => []
              | (n, a) :: rest => toListEntry order (prefix ++ [name]) n a :: each rest
              end) subs)
    with (map (λ '(n, a), toListEntry order (prefix ++ [name]) n a) subs); [done|].
  induction subs as [|[n a] rest IH]; [done|]. cbn [map]. by rewrite IH.
Qed.





(** ** Watch sessions *)

Lemma cancelAll_lookup ids ss j :
  cancelAll ids ss !! j
  = (λ s, if decide (j ∈ ids) then markCancelled s else s) <$> ss !! j.
Proof.
  unfold cancelAll. revert ss. induction ids as [|i ids IH]; intros ss; simpl.
  - destruct (ss !! j); simpl; [|done].
    destruct (decide (j ∈ [])) as [Hin|_]; [by apply elem_of_nil in Hin | done].
  - rewrite IH. unfold cancelSession. rewrite list_lookup_alter.
    destruct (decide (i = j)) as [->|Hne].
    + destruct (ss !! j) as [s|]; simpl; [|done].
      destruct (decide (j ∈ j :: ids)) as [_|Hn]; [|set_solver].
      by destruct (decide (j ∈ ids)).
    + destruct (ss !! j) as [s|]; simpl; [|done].
      destruct (decide (j ∈ ids)), (decide (j ∈ i :: ids)); set_solver.
Qed.

Lemma cancelAll_length ids ss : length (cancelAll ids ss) = length ss.
Proof.
  unfold cancelAll. revert ss. induction ids as [|i ids IH]; intros ss; simpl; [done|].
  rewrite IH. apply length_alter.
Qed.

Lemma cancelAll_quiet ids ss : Forall quiet ss → Forall quiet (cancelAll ids ss).
Proof.
  unfold cancelAll. revert ss. induction ids as [|i ids IH]; intros ss H; simpl; [done|].
  apply IH. by apply Forall_alter.
Qed.

Lemma perform_quiet_tracked a rlw :
  Forall quiet (sessions rlw) → tracked rlw →
  Forall quiet (sessions (perform a rlw)) ∧ tracked (perform a rlw).
Proof.
  unfold tracked. intros Hq Ht.
  destruct a; unfold perform, Invalidate, InvalidateWithDefiner.
  - rewrite List_state. simpl. rewrite cancelAll_length. split; [|done].
    by apply cancelAll_quiet.
  - unfold Watch. destruct (negb _); [done|].
    destruct (TimeoutSeconds opts); [|done]. simpl. split.
    + apply Forall_app. split; [done|]. by constructor.
    + rewrite length_app. simpl. rewrite Nat.add_1_r, seq_S. by rewrite Ht.
  - done.
  - unfold invalidateWithDefinerLocked.
    destruct obj, supplier; try done.
    destruct (ToAPIVersionAndKind _) as [apiVersion kind]. simpl.
    destruct (String.eqb apiVersion ""); [done|]. by destruct (String.eqb kind "").
  - unfold relistRound. destruct (ctxEnded rlw); [done|].
    destruct (needRelist rlw); [|done]. destruct (Time.Before _ _); [done|].
    simpl. rewrite cancelAll_length. split; [|done]. by apply cancelAll_quiet.
  - simpl. unfold cancelSession. rewrite length_alter. split; [|done].
    by apply Forall_alter.
  - simpl. rewrite length_alter. split; [|done].
    apply Forall_alter; [done|]. intros s _ Hs. unfold closeWhenDone.
    by destruct (sessionDone rlw now s).
  - done.
Qed.

Lemma run_quiet_tracked actions rlw :
  Forall quiet (sessions rlw) → tracked rlw →
  Forall quiet (sessions (run actions rlw)) ∧ tracked (run actions rlw).
Proof.
  revert rlw. induction actions as [|a rest IH]; intros rlw Hq Ht; [done|].
  change (run (a :: rest) rlw) with (run rest (perform a rlw)).
  destruct (perform_quiet_tracked a rlw Hq Ht) as [Hq' Ht']. by apply IH.
Qed.

Lemma sessionGoroutine_closes now id rlw s :
  sessions rlw !! id = Some s → quiet s → sessionDone rlw now s = true →
  endOfStream id (sessionGoroutine now id rlw).
Proof.
  intros Hs Hq Hd. unfold endOfStream, sessionGoroutine. simpl.
  rewrite list_lookup_alter_eq, Hs. simpl. unfold closeWhenDone. rewrite Hd.
  eexists. split; [reflexivity|]. done.
Qed.

(** C7: in every state that the catalog made by [NewAPIResourceInformer]
    can reach, nothing has been sent on the channel of any session, so a
    handle never delivers an event; and the session's goroutine closes the
    channel, still with nothing sent, once the deadline of the session has
    elapsed, once the context of the owning connection has ended, and once
    a later [List] has cancelled the tracked sessions. *)
Theorem watch_only_ends_the_stream cluster withSubresources actions id s :
  let rlw := run actions (newWatcher cluster withSubresources) in
  sessions rlw !! id = Some s →
  sent (results s) = []
  ∧ (∀ now, deadline s ≤ now → endOfStream id (sessionGoroutine now id rlw))
  ∧ (∀ now, endOfStream id (sessionGoroutine now id (endContext rlw)))
  ∧ (∀ now sgv order disc,
       endOfStream id (sessionGoroutine now id (snd (List sgv order disc rlw)))).
Proof.
  intros rlw Hs.
  destruct (run_quiet_tracked actions (newWatcher cluster withSubresources)) as [Hq Ht];
    [by constructor | done |].
  fold rlw in Hq, Ht.
  assert (Hqs : quiet s).
  { rewrite Forall_lookup in Hq. by eapply Hq. }
  split; [exact Hqs|]. split; [|split].
  - intros now Hnow. apply (sessionGoroutine_closes _ _ _ s); [done..|].
    unfold sessionDone. apply orb_true_iff. right. by apply Z.leb_le.
  - intros now. by apply (sessionGoroutine_closes _ _ _ s).
  - intros now sgv order disc. rewrite List_state. simpl.
    apply (sessionGoroutine_closes _ _ _ (markCancelled s)).
    + simpl. rewrite cancelAll_lookup, Hs. simpl.
      destruct (decide (id ∈ cancels rlw)) as [_|Hn]; [done|].
      exfalso. apply Hn. rewrite Ht. apply elem_of_seq.
      apply lookup_lt_Some in Hs. lia.
    + done.
    + unfold sessionDone. simpl. by rewrite orb_true_r.
Qed.

Lemma watch_only_ends_the_stream_witness :
  let opts := {| ResourceVersion := "2"; TimeoutSeconds := Some 30 |} in
  let rlw := run [ActInvalidate 0; ActWatch 1 opts] (newWatcher "cluster" true) in
  endOfStream 0 (sessionGoroutine 30000000001 0 rlw)
  ∧ endOfStream 0 (sessionGoroutine 2 0 (endContext rlw)).
Proof.
  intros opts rlw.
  destruct (watch_only_ends_the_stream "cluster" true [ActInvalidate 0; ActWatch 1 opts] 0
              {| deadline := 30000000001; cancelled := false;
                 results := {| sent := []; closed := false |} |} eq_refl)
    as (_ & Hdeadline & Hctx & _).
  split; [apply Hdeadline; simpl; lia | apply Hctx].
Defined.

(** ** Names of the listed resources *)





Lemma Split_slash_free (s : string) : Forall (λ piece, hasSlash piece = false) (Split s).
Proof.
  induction s as [|c s IH]; simpl.
  - by constructor.
  - destruct (Ascii.eqb c slash) eqn:E.
    + by constructor.
    + destruct (Split s) as [|piece pieces] eqn:Es; [by apply Split_nonempty in Es|].
      apply Forall_cons in IH as [Hp Hps]. constructor; [|done].
      unfold hasSlash in *. simpl. by rewrite E.
Qed.

Lemma elem_of_map_iff {A B : Type} (f : A → B) (l : list A) (y : B) :
  y ∈ map f l ↔ ∃ x, y = f x ∧ x ∈ l.
Proof.
  rewrite list_elem_of_In, in_map_iff. split.
  - intros (x & <- & Hx). exists x. by rewrite list_elem_of_In.
  - intros (x & -> & Hx). exists x. by rewrite <- list_elem_of_In.
Qed.

Lemma elem_of_joinRuns_fst {A B : Type} (runs : list (list A * list B)) (x : A) :
  x ∈ fst (joinRuns runs) ↔ ∃ round, round ∈ runs ∧ x ∈ fst round.
Proof.
  unfold joinRuns. simpl. induction runs as [|r runs IH]; simpl.
  - split; [by intros ?%elem_of_nil | by intros (? & ?%elem_of_nil & _)].
  - rewrite elem_of_app, IH. split.
    + intros [H|(round & Hr & Hx)]; [exists r | exists round]; set_solver.
    + intros (round & [->|Hr]%elem_of_cons & Hx); [by left | right; by exists round].
Qed.

Section TopLevel.

Variable P : APIResourceSpec → Prop.






End TopLevel.


Lemma List_items sgv order disc rlw :
  arlItems (listed (fst (List sgv order disc rlw)))
  = fst (joinRuns (map (listGroup sgv order disc
                          (FormatInt (Int64.add (resourceVersionI rlw) 1)) rlw)
                       (resourceFeed disc (includeSubresources rlw)))).
Proof.
  destruct disc as [[[groups resources] err1] [preferred err2]].
  unfold List, listWithSubresources, listSansSubresources, listGroup, resourceFeed, joinRuns.
  cbn [listAdvance groupsAndResources preferredResources fst snd includeSubresources index].
  by destruct (includeSubresources rlw).
Qed.




(** ** The relist deadline and the relist loop *)


Lemma relistRound_wave now rlw :
  snd (relistRound now rlw) = LoopCycled →
  needRelist rlw = true ∧ relistAfter rlw ≤ now
  ∧ needRelist (fst (relistRound now rlw)) = false
  ∧ sessions (fst (relistRound now rlw)) = cancelAll (cancels rlw) (sessions rlw).
Proof.
  unfold relistRound, Time.Before.
  destruct (ctxEnded rlw); [done|]. destruct (needRelist rlw); [|done].
  destruct (Z.ltb_spec now (relistAfter rlw)); [done|]. done.
Qed.










(** ** Order of the listed resources *)

Section SameUpToOrder.

Context {A : Type} (R : A → A → Prop).





End SameUpToOrder.


Lemma concat_perm {A : Type} (ls ls' : list (list A)) : ls ≡ₚ ls' → concat ls ≡ₚ concat ls'.
Proof.
  induction 1 as [|l ls ls' _ IH|l1 l2 ls|ls1 ls2 ls3 _ IH1 _ IH2]; simpl.
  - done.
  - by rewrite IH.
  - rewrite !app_assoc. f_equiv. apply Permutation_app_comm.
  - by rewrite IH1.
Qed.

Lemma arTuple_nested_ind (P : arTuple → Prop) :
  (∀ sp subs, Forall (λ e, P (snd e)) subs → P {| spec := sp; subresources := subs |}) →
  ∀ t, P t.
Proof.
  intros H. fix IH 1. intros [sp subs]. apply H.
  induction subs as [|[n a] rest IHrest]; constructor; [apply IH | apply IHrest].
Qed.

















Lemma List_listed sgv order disc rlw :
  listed (fst (List sgv order disc rlw))
  = {| arlTypeMeta := {| tmKind := "APIResourceList"; tmAPIVersion := sgv |};
       arlResourceVersion := FormatInt (Int64.add (resourceVersionI rlw) 1);
       arlItems :=
         concat (map (λ group, fst (listGroup sgv order disc
                                      (FormatInt (Int64.add (resourceVersionI rlw) 1))
                                      rlw group))
                     (resourceFeed disc (includeSubresources rlw))) |}.
Proof.
  pose proof (List_items sgv order disc rlw) as Hi.
  pose proof (List_stamp sgv order disc rlw) as Hs.
  unfold joinRuns in Hi. cbn [fst] in Hi. rewrite map_map in Hi.
  destruct (listed (fst (List sgv order disc rlw))) as [tm rv items] eqn:E.
  simpl in Hi, Hs. subst rv items. f_equal.
  assert (Htm : arlTypeMeta (listed (fst (List sgv order disc rlw)))
                = {| tmKind := "APIResourceList"; tmAPIVersion := sgv |}).
  { unfold List. simpl.
    by destruct (if includeSubresources rlw then _ else _) as [[? ?] ?]. }
  by rewrite E in Htm.
Qed.





(** * Further properties *)

(** ** The list-watch protocol *)

Lemma wrap_range (z : Z) : Int64.in_range (Int64.wrap z).
Proof.
  unfold Int64.in_range, Int64.wrap, Int64.modulus, Int64.min_int, Int64.max_int.
  pose proof (Z.mod_pos_bound (z + 2 ^ 63) (2 ^ 64) ltac:(lia)). lia.
Qed.

Lemma wrap_add (x y : Z) : Int64.wrap (Int64.wrap x + y) = Int64.wrap (x + y).
Proof.
  unfold Int64.wrap, Int64.modulus.
  replace ((x + 2 ^ 63) mod 2 ^ 64 - 2 ^ 63 + y + 2 ^ 63)
    with ((x + 2 ^ 63) mod 2 ^ 64 + y) by lia.
  rewrite Zplus_mod_idemp_l. do 2 f_equal. lia.
Qed.

Lemma wrap_shift_differs (v k : Z) :
  Int64.in_range v → 0 < k < 2 ^ 64 → Int64.wrap (v + k) ≠ v.
Proof.
  unfold Int64.in_range, Int64.wrap, Int64.modulus, Int64.min_int, Int64.max_int.
  intros Hv Hk E.
  destruct (Z_lt_dec (v + k + 2 ^ 63) (2 ^ 64)) as [Hlt|Hge].
  - rewrite Z.mod_small in E; lia.
  - assert (H : (v + k + 2 ^ 63) mod 2 ^ 64 = v + k + 2 ^ 63 - 2 ^ 64).
    { symmetry. apply (Z.mod_unique _ _ 1); lia. }
    lia.
Qed.

Lemma run_version actions rlw :
  Int64.in_range (resourceVersionI rlw) →
  resourceVersionI (run actions rlw) = Int64.wrap (resourceVersionI rlw + advances actions).
Proof.
  unfold advances. revert rlw. induction actions as [|a rest IH]; intros rlw Hr.
  - simpl. rewrite Z.add_0_r. symmetry. by apply wrap_in_range.
  - change (run (a :: rest) rlw) with (run rest (perform a rlw)).
    pose proof (perform_version a rlw) as Hv. cbn [List.filter].
    destruct (advancesVersion a).
    + rewrite IH; [|rewrite Hv; apply wrap_range].
      rewrite Hv. unfold Int64.add. rewrite wrap_add. cbn [length]. f_equal. lia.
    + rewrite IH; [|by rewrite Hv]. by rewrite Hv.
Qed.

(** X1: the version counter after any run from the start is the [int64]
    wrap-around of 1 plus the number of [List], [Invalidate] and
    [InvalidateWithDefiner] calls in the run; no other call moves it. *)
Theorem version_counts_advancing_calls cluster withSubresources actions :
  resourceVersionI (run actions (newWatcher cluster withSubresources))
  = Int64.wrap (1 + advances actions)
  ∧ Int64.in_range (resourceVersionI (run actions (newWatcher cluster withSubresources))).
Proof.
  rewrite run_version by (by vm_compute). split; [done|]. apply wrap_range.
Qed.

(** X2: a [Watch] that asks for the list version returned by the [List]
    just before it, with a timeout, is given a handle, whatever the state
    was; the handle's session is a new one. *)
Theorem Watch_accepts_fresh_list sgv order disc now seconds rlw :
  let listing := List sgv order disc rlw in
  let opts := {| ResourceVersion := arlResourceVersion (listed (fst listing));
                 TimeoutSeconds := Some seconds |} in
  fst (Watch now opts (snd listing)) = WatchHandle (length (sessions rlw))
  ∧ length (sessions (snd (Watch now opts (snd listing)))) = S (length (sessions rlw)).
Proof.
  intros listing opts. subst listing opts.
  rewrite Watch_match.
  - cbn [TimeoutSeconds fst snd sessions]. rewrite List_state. cbn [listAdvance snd sessions].
    rewrite cancelAll_length. split; [done|].
    rewrite length_app, cancelAll_length. simpl. lia.
  - cbn [ResourceVersion]. by rewrite List_stamp, List_state.
Qed.

(** X3: a version that has been superseded is refused.  If between reading
    a version and the [Watch] that asks for it at least one and fewer than
    2^64 [List] or invalidation calls have been made, the [Watch] returns
    the resource-expired error and makes no session. *)
Theorem Watch_refuses_superseded_version cluster withSubresources actions later now timeout :
  let old := run actions (newWatcher cluster withSubresources) in
  let current := run later old in
  0 < advances later < 2 ^ 64 →
  ∃ message,
    Watch now {| ResourceVersion := FormatInt (resourceVersionI old);
                 TimeoutSeconds := timeout |} current
    = (WatchError (NewResourceExpired message), current).
Proof.
  intros old current Hk. eexists. apply Watch_mismatch. cbn [ResourceVersion].
  intros E%FormatInt_inj. subst current.
  assert (Hr : Int64.in_range (resourceVersionI old)).
  { subst old. rewrite run_version by (by vm_compute). apply wrap_range. }
  rewrite (run_version later old Hr) in E.
  symmetry in E. by apply wrap_shift_differs in E.
Qed.

Lemma Watch_refuses_superseded_version_witness :
  ∃ message,
    Watch 9 {| ResourceVersion := "2"; TimeoutSeconds := Some 60 |}
      (run [ActInvalidate 3; ActInvalidate 4] (run [ActInvalidate 1] (newWatcher "c" true)))
    = (WatchError (NewResourceExpired message),
       run [ActInvalidate 3; ActInvalidate 4] (run [ActInvalidate 1] (newWatcher "c" true))).
Proof.
  apply (Watch_refuses_superseded_version "c" true [ActInvalidate 1]
           [ActInvalidate 3; ActInvalidate 4] 9 (Some 60)).
  vm_compute. split; reflexivity.
Defined.

(** ** Invalidation *)





(** X5: no invalidation cancels a session or touches the list of cancel
    functions, the context or the configuration: open watches are ended
    later, by the relist loop.  Called without an object or without a
    supplier, [InvalidateWithDefiner] does exactly what [Invalidate] does and
    leaves the definer index alone. *)
Theorem invalidation_leaves_sessions now obj supplier set rlw :
  let rlw' := fst (InvalidateWithDefiner now obj supplier set rlw) in
  sessions rlw' = sessions rlw ∧ cancels rlw' = cancels rlw
  ∧ ctxEnded rlw' = ctxEnded rlw ∧ includeSubresources rlw' = includeSubresources rlw
  ∧ clusterName rlw' = clusterName rlw
  ∧ (obj = None ∨ supplier = None →
       InvalidateWithDefiner now obj supplier set rlw = Invalidate now rlw
       ∧ index rlw' = index rlw).
Proof.
  unfold InvalidateWithDefiner, Invalidate, invalidateWithDefinerLocked.
  destruct obj as [o|], supplier as [sup|]; cbn zeta;
    try (repeat split; done).
  destruct (ToAPIVersionAndKind (GetGVK sup o)) as [apiVersion kind].
  cbn [oidAPIVersion oidKind].
  destruct (String.eqb apiVersion ""); [|destruct (String.eqb kind "")];
    (repeat split; try done);
    match goal with H : _ ∨ _ |- _ => by destruct H end.
Qed.

Lemma invalidation_leaves_sessions_witness :
  InvalidateWithDefiner 7 (Some {| objName := "widgets"; objBody := 0 |}) None true
    (newWatcher "c" true)
  = Invalidate 7 (newWatcher "c" true).
Proof.
  apply (proj2 (proj2 (proj2 (proj2 (proj2
    (invalidation_leaves_sessions 7 (Some {| objName := "widgets"; objBody := 0 |}) None true
       (newWatcher "c" true))))))).
  by right.
Defined.

(** ** Sessions and their cancel functions *)

Lemma invalidate_frame now obj supplier set rlw :
  sessions (fst (invalidateWithDefinerLocked now obj supplier set rlw)) = sessions rlw
  ∧ cancels (fst (invalidateWithDefinerLocked now obj supplier set rlw)) = cancels rlw
  ∧ ctxEnded (fst (invalidateWithDefinerLocked now obj supplier set rlw)) = ctxEnded rlw.
Proof.
  unfold invalidateWithDefinerLocked.
  destruct obj as [o|], supplier as [sup|]; try done.
  destruct (ToAPIVersionAndKind (GetGVK sup o)) as [apiVersion kind].
  cbn [oidAPIVersion oidKind].
  destruct (String.eqb apiVersion ""); [done|]. by destruct (String.eqb kind "").
Qed.

Lemma cancelAll_Forall (P : watchSession → Prop) ids ss :
  (∀ s, P s → P (markCancelled s)) → Forall P ss → Forall P (cancelAll ids ss).
Proof.
  intros Hm. unfold cancelAll. revert ss.
  induction ids as [|i ids IH]; intros ss H; simpl; [done|].
  apply IH. apply Forall_alter; [done|]. intros s _. apply Hm.
Qed.

Lemma perform_cancels a rlw :
  cancels (perform a rlw)
  = cancels rlw ++ match a with
                   | ActWatch now opts =>
                       match fst (Watch now opts rlw) with
                       | WatchHandle id => [id]
                       | _ => []
                       end
                   | _ => []
                   end.
Proof.
  destruct a; unfold perform, Invalidate, InvalidateWithDefiner; rewrite ?app_nil_r.
  - by rewrite List_state.
  - unfold Watch. destruct (negb _); [by rewrite app_nil_r|].
    destruct (TimeoutSeconds opts); [done | by rewrite app_nil_r].
  - done.
  - by destruct (invalidate_frame now obj supplier set rlw) as (_ & ? & _).
  - unfold relistRound. destruct (ctxEnded rlw); [done|].
    destruct (needRelist rlw); [|done]. by destruct (Time.Before _ _).
  - done.
  - done.
  - done.
Qed.

(** X6: the list of cancel functions only grows.  After any run it holds
    one cancel function for every handle that [Watch] has given out, in the
    order they were given, also for sessions that have long ended: neither
    [List] nor the relist loop nor [Stop] ever removes one. *)
Theorem cancels_are_never_pruned cluster withSubresources actions :
  let start := newWatcher cluster withSubresources in
  cancels (run actions start) = handlesGiven actions start
  ∧ handlesGiven actions start = seq 0 (length (sessions (run actions start)))
  ∧ ∀ more, ∃ added, cancels (run (actions ++ more) start) = cancels (run actions start) ++ added.
Proof.
  intros start.
  assert (Hgen : ∀ acts rlw, cancels (run acts rlw) = cancels rlw ++ handlesGiven acts rlw).
  { induction acts as [|a rest IH]; intros rlw; [by rewrite app_nil_r|].
    change (run (a :: rest) rlw) with (run rest (perform a rlw)).
    rewrite IH, perform_cancels. cbn [handlesGiven].
    destruct a; rewrite ?app_nil_r; try done.
    destruct (fst (Watch now opts rlw)); rewrite ?app_nil_r; try done.
    by rewrite <- app_assoc. }
  destruct (run_quiet_tracked actions start) as [_ Ht]; [by constructor | done |].
  split; [by rewrite Hgen|]. split.
  - rewrite <- Ht. by rewrite Hgen.
  - intros more. exists (handlesGiven more (run actions start)).
    unfold run at 1. rewrite foldl_app. apply Hgen.
Qed.

Lemma perform_ctxEnded a rlw : ctxEnded rlw = true → ctxEnded (perform a rlw) = true.
Proof.
  intros H. destruct a; unfold perform, Invalidate; try done.
  - by rewrite List_state.
  - unfold Watch. destruct (negb _); [done|]. by destruct (TimeoutSeconds opts).
  - unfold InvalidateWithDefiner.
    by destruct (invalidate_frame now obj supplier set rlw) as (_ & _ & ->).
  - unfold relistRound. by rewrite H.
Qed.

Lemma perform_sessions_Forall (P : watchSession → Prop) a rlw :
  (∀ s, P s → P (markCancelled s)) →
  (∀ d, P {| deadline := d; cancelled := false; results := {| sent := []; closed := false |} |}) →
  (∀ now id, a ≠ ActSessionGoroutine now id) →
  Forall P (sessions rlw) → Forall P (sessions (perform a rlw)).
Proof.
  intros Hm Hn Hg H.
  destruct a; unfold perform, Invalidate; try done.
  - rewrite List_state. simpl. by apply cancelAll_Forall.
  - unfold Watch. destruct (negb _); [done|].
    destruct (TimeoutSeconds opts); [|done]. simpl.
    apply Forall_app. split; [done|]. constructor; [apply Hn | constructor].
  - unfold InvalidateWithDefiner.
    by destruct (invalidate_frame now obj supplier set rlw) as (-> & _).
  - unfold relistRound. destruct (ctxEnded rlw); [done|].
    destruct (needRelist rlw); [|done]. destruct (Time.Before _ _); [done|].
    simpl. by apply cancelAll_Forall.
  - simpl. apply Forall_alter; [done|]. intros s _. apply Hm.
  - by destruct (Hg now id).
Qed.

Lemma perform_closed_for_a_cause horizon a rlw :
  match a with ActSessionGoroutine now _ => now ≤ horizon | _ => True end →
  ctxEnded rlw = true
  ∨ Forall (λ s, closed (results s) = true → cancelled s = true ∨ deadline s ≤ horizon)
           (sessions rlw) →
  ctxEnded (perform a rlw) = true
  ∨ Forall (λ s, closed (results s) = true → cancelled s = true ∨ deadline s ≤ horizon)
           (sessions (perform a rlw)).
Proof.
  intros Ha [Hctx|Hst]; [left; by apply perform_ctxEnded|].
  destruct (ctxEnded rlw) eqn:Hctx; [left; by apply perform_ctxEnded|].
  destruct a; try (right; apply perform_sessions_Forall; [by intros; left | done | done | done]).
  - right. simpl. apply Forall_alter; [done|]. intros x _ Hx. unfold closeWhenDone.
    destruct (sessionDone rlw now x) eqn:Hd; [|done]. intros _.
    unfold sessionDone in Hd. rewrite Hctx in Hd. simpl in Hd.
    apply orb_prop in Hd as [Hd|Hd%Z.leb_le]; [by left | right; simpl; lia].
Qed.

(** X7: a stream ends only for a cause.  Along any run in which no session
    goroutine looks at its context later than [horizon], a session whose
    channel is closed has had its cancel function called, or its deadline is
    not later than [horizon], or the context of the connection has ended;
    and a cancel function is called only by a [List], a round of the relist
    loop or a [Stop], so in a run without any of those no session is
    cancelled. *)
Theorem stream_ends_only_for_a_cause cluster withSubresources actions horizon id s :
  let rlw := run actions (newWatcher cluster withSubresources) in
  goroutinesBy horizon actions →
  sessions rlw !! id = Some s →
  (closed (results s) = true →
     ctxEnded rlw = true ∨ cancelled s = true ∨ deadline s ≤ horizon)
  ∧ (existsb mayCancel actions = false → cancelled s = false).
Proof.
  intros rlw Hby Hs. subst rlw. split.
  - assert (H : ∀ st,
      ctxEnded st = true
      ∨ Forall (λ s, closed (results s) = true → cancelled s = true ∨ deadline s ≤ horizon)
               (sessions st) →
      ctxEnded (run actions st) = true
      ∨ Forall (λ s, closed (results s) = true → cancelled s = true ∨ deadline s ≤ horizon)
               (sessions (run actions st))).
    { clear Hs. induction actions as [|a rest IH]; intros st Hst; [done|].
      change (run (a :: rest) st) with (run rest (perform a st)).
      apply Forall_cons in Hby as [Ha Hrest]. apply (IH Hrest).
      by apply (perform_closed_for_a_cause horizon). }
    destruct (H (newWatcher cluster withSubresources)) as [Hctx|Hall];
      [right; constructor | by left |].
    intros Hc. right. rewrite Forall_lookup in Hall. by apply (Hall id s).
  - revert Hs.
    cut (∀ st, Forall (λ s, cancelled s = false) (sessions st) →
               existsb mayCancel actions = false →
               Forall (λ s, cancelled s = false) (sessions (run actions st))).
    { intros H Hs Hno. specialize (H (newWatcher cluster withSubresources) ltac:(constructor) Hno).
      rewrite Forall_lookup in H. by apply (H id s). }
    clear Hby. induction actions as [|a rest IH]; intros st Hst Hno; [done|].
    change (run (a :: rest) st) with (run rest (perform a st)).
    cbn [existsb] in Hno. apply orb_false_elim in Hno as [Ha Hrest].
    apply IH; [|done].
    destruct a; try discriminate Ha; unfold perform, Invalidate.
    + unfold Watch. destruct (negb _); [done|].
      destruct (TimeoutSeconds opts); [|done]. simpl.
      apply Forall_app. split; [done|]. by constructor.
    + by destruct (invalidate_frame now None None false st) as (-> & _).
    + unfold InvalidateWithDefiner.
      by destruct (invalidate_frame now obj supplier set st) as (-> & _).
    + simpl. apply Forall_alter; [done|]. intros x _ Hx. unfold closeWhenDone.
      by destruct (sessionDone st now x).
    + done.
Qed.

Lemma stream_ends_only_for_a_cause_witness :
  let opts := {| ResourceVersion := "1"; TimeoutSeconds := Some 30 |} in
  let actions := [ActWatch 1 opts; ActSessionGoroutine 5 0; ActInvalidate 6] in
  let s := {| deadline := 30000000001; cancelled := false;
              results := {| sent := []; closed := false |} |} in
  goroutinesBy 5 actions
  ∧ sessions (run actions (newWatcher "c" true)) !! 0%nat = Some s
  ∧ existsb mayCancel actions = false
  ∧ cancelled s = false.
Proof.
  intros opts actions s.
  assert (Hby : goroutinesBy 5 actions).
  { constructor; [exact I|]. constructor; [reflexivity|]. constructor; [exact I|].
    constructor. }
  split; [exact Hby|]. split; [reflexivity|]. split; [reflexivity|].
  exact (proj2 (stream_ends_only_for_a_cause "c" true actions 5 0 s Hby eq_refl) eq_refl).
Defined.

Lemma cancelled_session_ends now id rlw s :
  sessions rlw !! id = Some s → quiet s → cancelled s = true →
  endOfStream id (sessionGoroutine now id rlw).
Proof.
  intros Hs Hq Hc. apply (sessionGoroutine_closes _ _ _ s); [done..|].
  unfold sessionDone. rewrite Hc. by rewrite orb_true_r.
Qed.

(** X8: the other two ways a stream ends.  In any state the catalog can
    reach, [Stop] on a handle cancels the session of that handle and no
    other, so that its goroutine closes the channel whatever the time, and a
    second [Stop] changes nothing; and a relist wave cancels every session
    made so far. *)
Theorem Stop_and_wave_end_streams cluster withSubresources actions id s :
  let rlw := run actions (newWatcher cluster withSubresources) in
  sessions rlw !! id = Some s →
  (∀ now, endOfStream id (sessionGoroutine now id (Stop id rlw)))
  ∧ (∀ j, j ≠ id → sessions (Stop id rlw) !! j = sessions rlw !! j)
  ∧ Stop id (Stop id rlw) = Stop id rlw
  ∧ (∀ t now, snd (relistRound t rlw) = LoopCycled →
       endOfStream id (sessionGoroutine now id (fst (relistRound t rlw)))).
Proof.
  intros rlw Hs.
  destruct (run_quiet_tracked actions (newWatcher cluster withSubresources)) as [Hq Ht];
    [by constructor | done |].
  fold rlw in Hq, Ht.
  assert (Hqs : quiet s) by (rewrite Forall_lookup in Hq; by eapply Hq).
  split; [|split; [|split]].
  - intros now. apply (cancelled_session_ends _ _ _ (markCancelled s)); [|done..].
    simpl. unfold cancelSession. by rewrite list_lookup_alter_eq, Hs.
  - intros j Hj. simpl. unfold cancelSession. by rewrite list_lookup_alter_ne.
  - unfold Stop, withSessions. simpl. f_equal. unfold cancelSession.
    apply list_eq. intros j. destruct (decide (id = j)) as [->|Hne].
    + rewrite !list_lookup_alter_eq. by destruct (sessions rlw !! j).
    + by rewrite !list_lookup_alter_ne.
  - intros t now Hw. destruct (relistRound_wave t rlw Hw) as (_ & _ & _ & Hss).
    apply (cancelled_session_ends _ _ _ (markCancelled s)); [|done..].
    rewrite Hss, cancelAll_lookup, Hs. simpl.
    destruct (decide (id ∈ cancels rlw)) as [_|Hn]; [done|].
    exfalso. apply Hn. rewrite Ht. apply elem_of_seq.
    apply lookup_lt_Some in Hs. lia.
Qed.

Lemma Stop_and_wave_end_streams_witness :
  let opts := {| ResourceVersion := "1"; TimeoutSeconds := Some 30 |} in
  let rlw := run [ActWatch 1 opts; ActWatch 2 opts] (newWatcher "c" true) in
  endOfStream 1 (sessionGoroutine 3 1 (Stop 1 rlw))
  ∧ sessions (Stop 1 rlw) !! 0%nat = sessions rlw !! 0%nat.
Proof.
  intros opts rlw.
  destruct (Stop_and_wave_end_streams "c" true [ActWatch 1 opts; ActWatch 2 opts] 1
              {| deadline := 30000000002; cancelled := false;
                 results := {| sent := []; closed := false |} |} eq_refl)
    as (Hend & Hother & _).
  split; [apply Hend | apply Hother; lia].
Defined.

(** X9: the timeout of a [Watch].  The session's deadline is the time of
    the call plus the timeout in seconds turned into nanoseconds in [int64]
    arithmetic, which is exact for up to 9223372036 seconds either way.  A
    timeout that comes out as zero or negative makes a session that is done
    at once; one that comes out positive makes a session whose goroutine
    leaves the channel open at every time before the deadline, as long as
    the context of the connection is alive. *)
Theorem Watch_timeout now opts seconds rlw :
  ResourceVersion opts = FormatInt (resourceVersionI rlw) →
  TimeoutSeconds opts = Some seconds →
  let id := length (sessions rlw) in
  let rlw' := snd (Watch now opts rlw) in
  let timeout := Int64.mul seconds Time.Second in
  (∃ session, sessions rlw' !! id = Some session ∧ deadline session = now + timeout
              ∧ cancelled session = false ∧ closed (results session) = false)
  ∧ (-9223372036 ≤ seconds ≤ 9223372036 → timeout = seconds * 1000000000)
  ∧ (timeout ≤ 0 → endOfStream id (sessionGoroutine now id rlw'))
  ∧ (0 < timeout → ctxEnded rlw = false → ∀ t, t < now + timeout →
       ∃ session, sessions (sessionGoroutine t id rlw') !! id = Some session
                  ∧ closed (results session) = false).
Proof.
  intros Hv Ht id rlw' timeout. subst rlw'.
  rewrite (Watch_match _ _ _ Hv), Ht. cbn [snd].
  set (session := {| deadline := Time.Add now (Int64.mul seconds Time.Second);
                     cancelled := false; results := {| sent := []; closed := false |} |}).
  assert (Hl : (sessions rlw ++ [session]) !! id = Some session).
  { subst id. rewrite lookup_app_r by lia. by rewrite Nat.sub_diag. }
  split; [by exists session|]. split; [|split].
  - intros Hr. subst timeout. unfold Int64.mul, Time.Second. apply wrap_in_range.
    unfold Int64.in_range, Int64.min_int, Int64.max_int. lia.
  - intros Hneg. apply (sessionGoroutine_closes _ _ _ session); [done..|].
    unfold sessionDone. cbn [deadline session cancelled]. unfold Time.Add.
    apply orb_true_iff. right. apply Z.leb_le. subst timeout. lia.
  - intros Hpos Hctx t Hlt. unfold sessionGoroutine. cbn [sessions withSessions].
    rewrite list_lookup_alter_eq, Hl. cbn [fmap option_fmap option_map].
    unfold closeWhenDone, sessionDone. cbn [ctxEnded deadline cancelled session].
    rewrite Hctx. unfold Time.Add. subst timeout.
    destruct (Z.leb_spec (now + Int64.mul seconds Time.Second) t); [lia|].
    by exists session.
Qed.

Lemma Watch_timeout_witness :
  endOfStream 0 (sessionGoroutine 4 0
    (snd (Watch 4 {| ResourceVersion := "1"; TimeoutSeconds := Some 0 |}
            (newWatcher "c" true)))).
Proof.
  apply (Watch_timeout 4 {| ResourceVersion := "1"; TimeoutSeconds := Some 0 |} 0
           (newWatcher "c" true) eq_refl eq_refl).
  vm_compute. discriminate.
Defined.

(** A timeout of 9223372037 seconds no longer fits: it wraps around to a
    negative duration and the session is done when it is made. *)
Example Watch_timeout_wraps :
  Int64.mul 9223372037 Time.Second < 0
  ∧ endOfStream 0 (sessionGoroutine 4 0
      (snd (Watch 4 {| ResourceVersion := "1"; TimeoutSeconds := Some 9223372037 |}
              (newWatcher "c" true)))).
Proof.
  split; [reflexivity|]. eexists. split; [reflexivity|]. done.
Qed.



(** ** Paths and the tree of one resource list *)

Lemma Split_no_slash (s : string) : hasSlash s = false → Split s = [s].
Proof.
  unfold hasSlash. induction s as [|c s IH]; simpl; [done|].
  destruct (Ascii.eqb c slash); simpl; [done|]. intros H. by rewrite (IH H).
Qed.

Lemma Split_app_slash (n rest : string) :
  hasSlash n = false → Split (n +:+ String slash rest) = n :: Split rest.
Proof.
  unfold hasSlash. induction n as [|c n IH]; simpl.
  - done.
  - destruct (Ascii.eqb c slash); simpl; [done|]. intros H. by rewrite (IH H).
Qed.

Lemma Split_single_inv (s n : string) : Split s = [n] → s = n ∧ hasSlash s = false.
Proof.
  revert n. induction s as [|c s IH]; intros n; simpl.
  - by intros [= <-].
  - destruct (Ascii.eqb c slash) eqn:E.
    + intros [= _ H]. by apply Split_nonempty in H.
    + destruct (Split s) as [|piece pieces] eqn:Es; [by apply Split_nonempty in Es|].
      intros [= <- ->]. destruct (IH piece eq_refl) as [-> Hs].
      split; [done|]. unfold hasSlash in *. simpl. by rewrite E.
Qed.

Lemma Split_cons_inv (s n p : string) (ps : list string) :
  Split s = n :: p :: ps →
  ∃ rest, s = n +:+ String slash rest ∧ Split rest = p :: ps ∧ hasSlash n = false.
Proof.
  revert n. induction s as [|c s IH]; intros n; simpl; [done|].
  destruct (Ascii.eqb_spec c slash) as [->|Hc].
  - intros [= <- Hs]. by exists s.
  - destruct (Split s) as [|piece pieces] eqn:Es; [done|].
    intros [= <- ->]. destruct (IH piece eq_refl) as (rest & -> & Hr & Hn).
    exists rest. split; [done|]. split; [done|].
    unfold hasSlash in *. simpl. by destruct (Ascii.eqb_spec c slash).
Qed.

Lemma lookupStep_storeStep_eq name art am :
  lookupStep name (storeStep name art am) = Some art.
Proof.
  induction am as [|[k a] rest IH]; simpl.
  - by rewrite String.eqb_refl.
  - destruct (String.eqb k name) eqn:E; simpl; by rewrite E.
Qed.

Lemma lookupStep_storeStep_ne name name' art am :
  name' ≠ name → lookupStep name' (storeStep name art am) = lookupStep name' am.
Proof.
  intros Hne. induction am as [|[k a] rest IH]; simpl.
  - destruct (String.eqb_spec name name'); [congruence | done].
  - destruct (String.eqb_spec k name) as [->|Hk]; simpl.
    + by destruct (String.eqb_spec name name'); [congruence|].
    + by rewrite IH.
Qed.

Lemma storeStep_Forall (P : string * arTuple → Prop) name art am :
  Forall P am → P (name, art) → Forall P (storeStep name art am).
Proof.
  intros Ham Hn. induction am as [|[k a] rest IH]; simpl.
  - by constructor.
  - apply Forall_cons in Ham as [Hk Hrest].
    destruct (String.eqb_spec k name) as [->|Hne]; constructor; auto.
Qed.

Lemma storeStep_keys name art am :
  map fst (storeStep name art am)
  = if decide (name ∈ map fst am) then map fst am else map fst am ++ [name].
Proof.
  induction am as [|[k a] rest IH]; simpl.
  - destruct (decide (name ∈ [])) as [H|_]; [by apply elem_of_nil in H | done].
  - destruct (String.eqb_spec k name) as [->|Hne]; simpl.
    + destruct (decide (name ∈ name :: map fst rest)) as [_|H]; [done | set_solver].
    + rewrite IH. destruct (decide (name ∈ map fst rest)),
        (decide (name ∈ k :: map fst rest)); try done; set_solver.
Qed.

Lemma storeStep_NoDup name art am :
  NoDup (map fst am) → NoDup (map fst (storeStep name art am)).
Proof.
  intros H. rewrite storeStep_keys. destruct (decide (name ∈ map fst am)); [done|].
  apply NoDup_app. split; [done|]. split; [|apply NoDup_singleton].
  intros x Hx ->%list_elem_of_singleton. done.
Qed.

Lemma lookupStep_elem_of name art am : lookupStep name am = Some art → (name, art) ∈ am.
Proof.
  induction am as [|[k a] rest IH]; simpl; [done|].
  destruct (String.eqb_spec k name) as [->|Hne].
  - intros [= ->]. apply list_elem_of_here.
  - intros H. apply list_elem_of_further. by apply IH.
Qed.

Lemma elem_of_lookupStep name art am :
  NoDup (map fst am) → (name, art) ∈ am → lookupStep name am = Some art.
Proof.
  induction am as [|[k a] rest IH]; simpl; [by intros _ ?%elem_of_nil|].
  intros [Hk Hrest]%NoDup_cons [[= -> ->]|Hin]%elem_of_cons.
  - by rewrite String.eqb_refl.
  - destruct (String.eqb_spec k name) as [->|Hne]; [|by apply IH].
    exfalso. apply Hk. apply elem_of_map_iff. by exists (name, art).
Qed.

Lemma lookupStep_keyed name art am :
  mapKeyed am → lookupStep name am = Some art → keyed art.
Proof.
  intros [_ Hall] Hl. apply lookupStep_elem_of in Hl.
  rewrite Forall_forall in Hall. by apply (Hall (name, art)).
Qed.

Lemma insert_keyed path sp am am' :
  mapKeyed am → insert path sp am = Some am' → mapKeyed am'.
Proof.
  revert am am'. induction path as [|name0 rest IH]; intros am am' Ham; [done|].
  cbn [insert].
  set (art := match lookupStep name0 am with
              | Some art => art
              | None => {| spec := None; subresources := [] |}
              end).
  assert (Hart : keyed art).
  { subst art. destruct (lookupStep name0 am) eqn:E; [by eapply lookupStep_keyed|].
    constructor; [apply NoDup_nil_2 | constructor]. }
  destruct Hart as [s0 subs Hnd Hsubs]. cbn [spec subresources].
  destruct Ham as [Hkeys Hall].
  destruct rest as [|name1 rest].
  - intros [= <-]. split; [by apply storeStep_NoDup|].
    apply storeStep_Forall; [done|]. by constructor.
  - destruct (insert (name1 :: rest) sp subs) as [subs'|] eqn:E; [|done].
    intros [= <-]. destruct (IH subs subs' (conj Hnd Hsubs) E) as [Hnd' Hsubs'].
    split; [by apply storeStep_NoDup|].
    apply storeStep_Forall; [done|]. by constructor.
Qed.

Lemma insertResource_keyed am ar : mapKeyed am → mapKeyed (insertResource am ar).
Proof.
  intros Ham. unfold insertResource.
  destruct (insert (Split (Name ar)) ar am) as [am'|] eqn:E; [|done].
  by eapply insert_keyed.
Qed.

Lemma groupTree_keyed order idx gv mrs : mapKeyed (groupTree order idx gv mrs).
Proof.
  unfold groupTree.
  cut (∀ specs am, mapKeyed am → mapKeyed (foldl insertResource am specs)).
  { intros H. apply H. split; [apply NoDup_nil_2 | constructor]. }
  induction specs as [|sp specs IH]; intros am Ham; simpl; [done|].
  by apply IH, insertResource_keyed.
Qed.

Lemma specAt_cons name rest am :
  specAt (name :: rest) am
  = match lookupStep name am with
    | None => None
    | Some art => match rest with
                  | [] => spec art
                  | _ :: _ => specAt rest (subresources art)
                  end
    end.
Proof.
  unfold specAt. cbn [nodeAt]. destruct (lookupStep name am); [|done]. by destruct rest.
Qed.

Lemma specAt_empty path : specAt path [] = None.
Proof. by destruct path. Qed.

Lemma specAt_insert_eq path sp am am' :
  insert path sp am = Some am' → specAt path am' = Some sp.
Proof.
  revert am am'. induction path as [|name0 rest IH]; intros am am'; [done|].
  cbn [insert]. rewrite specAt_cons. destruct rest as [|name1 rest].
  - intros [= <-]. by rewrite lookupStep_storeStep_eq.
  - destruct (insert (name1 :: rest) sp _) as [subs'|] eqn:E; [|done].
    intros [= <-]. rewrite lookupStep_storeStep_eq. cbn [subresources]. by eapply IH.
Qed.

Lemma specAt_insert_ne path path' sp am am' :
  insert path sp am = Some am' → path' ≠ path → specAt path' am' = specAt path' am.
Proof.
  revert path' am am'. induction path as [|name0 rest IH]; intros path' am am'; [done|].
  cbn [insert]. destruct path' as [|name' rest']; [done|].
  rewrite !specAt_cons.
  set (art := match lookupStep name0 am with
              | Some art => art
              | None => {| spec := None; subresources := [] |}
              end).
  assert (Hold : match lookupStep name0 am with
                 | None => None
                 | Some a => match rest' with
                             | [] => spec a
                             | _ :: _ => specAt rest' (subresources a)
                             end
                 end
                 = match rest' with
                   | [] => spec art
                   | _ :: _ => specAt rest' (subresources art)
                   end).
  { subst art. destruct (lookupStep name0 am); [done|].
    destruct rest'; [done|]. cbn [subresources]. by rewrite specAt_empty. }
  destruct rest as [|name1 rest].
  - intros [= <-] Hne. destruct (decide (name' = name0)) as [->|Hn].
    + rewrite lookupStep_storeStep_eq, Hold. cbn [spec subresources].
      destruct rest'; [done|]. done.
    + by rewrite lookupStep_storeStep_ne.
  - destruct (insert (name1 :: rest) sp (subresources art)) as [subs'|] eqn:E; [|done].
    intros [= <-] Hne. destruct (decide (name' = name0)) as [->|Hn].
    + rewrite lookupStep_storeStep_eq, Hold. cbn [spec subresources].
      destruct rest' as [|n r]; [done|].
      apply (IH (n :: r) _ _ E). congruence.
    + by rewrite lookupStep_storeStep_ne.
Qed.

Lemma specAt_insertResource path am ar :
  specAt path (insertResource am ar)
  = if decide (path = Split (Name ar)) then Some ar else specAt path am.
Proof.
  unfold insertResource. destruct (insert_Split_Some (Name ar) ar am) as [am' E].
  rewrite E. destruct (decide (path = Split (Name ar))) as [->|Hne].
  - by eapply specAt_insert_eq.
  - by eapply specAt_insert_ne.
Qed.

Lemma specAt_foldl_inv path specs am sp :
  specAt path (foldl insertResource am specs) = Some sp →
  specAt path am = Some sp ∨ (sp ∈ specs ∧ Split (Name sp) = path).
Proof.
  revert am. induction specs as [|x specs IH]; intros am; simpl; [by left|].
  intros [H|[Hin Hs]]%IH.
  - rewrite specAt_insertResource in H.
    destruct (decide (path = Split (Name x))) as [->|_]; [|by left].
    injection H as <-. right. split; [apply list_elem_of_here | done].
  - right. split; [by apply list_elem_of_further | done].
Qed.

Lemma specAt_foldl_intro path specs am :
  is_Some (specAt path am) ∨ (∃ sp, sp ∈ specs ∧ Split (Name sp) = path) →
  is_Some (specAt path (foldl insertResource am specs)).
Proof.
  revert am. induction specs as [|x specs IH]; intros am; simpl.
  - intros [H|(sp & Hin & _)]; [done | by apply elem_of_nil in Hin].
  - intros H. apply IH.
    destruct (decide (path = Split (Name x))) as [E|Hne].
    + left. rewrite specAt_insertResource. by destruct (decide _).
    + destruct H as [H|(sp & [->|Hin]%elem_of_cons & Hs)].
      * left. rewrite specAt_insertResource. by destruct (decide _).
      * congruence.
      * right. by exists sp.
Qed.

Lemma elem_of_specNames name am :
  name ∈ specNames am ↔ ∃ art, (name, art) ∈ am ∧ is_Some (spec art).
Proof.
  unfold specNames. induction am as [|[k a] rest IH]; simpl.
  - split; [by intros ?%elem_of_nil | by intros (? & ?%elem_of_nil & _)].
  - rewrite elem_of_app, IH. split.
    + intros [H|(art & Hin & Hs)].
      * destruct (spec a) eqn:E; [|by apply elem_of_nil in H].
        apply list_elem_of_singleton in H as ->. exists a.
        split; [apply list_elem_of_here | by rewrite E].
      * exists art. split; [by apply list_elem_of_further | done].
    + intros (art & [[= -> ->]|Hin]%elem_of_cons & Hs).
      * left. destruct Hs as [x ->]. apply list_elem_of_here.
      * right. by exists art.
Qed.

Lemma specNames_NoDup am : NoDup (map fst am) → NoDup (specNames am).
Proof.
  unfold specNames. induction am as [|[k a] rest IH]; simpl; [constructor|].
  intros [Hk Hrest]%NoDup_cons. destruct (spec a); simpl; [|by apply IH].
  apply NoDup_cons. split; [|by apply IH].
  intros (art & Hin & _)%elem_of_specNames. apply Hk.
  apply elem_of_map_iff. by exists (k, art).
Qed.

Lemma elem_of_specNames_keyed name am :
  NoDup (map fst am) → name ∈ specNames am ↔ is_Some (specAt [name] am).
Proof.
  intros Hnd. rewrite elem_of_specNames, specAt_cons. split.
  - intros (art & Hin & Hs). by rewrite (elem_of_lookupStep _ _ _ Hnd Hin).
  - destruct (lookupStep name am) as [art|] eqn:E; [|by intros [? ?]].
    intros Hs. exists art. split; [by apply lookupStep_elem_of | done].
Qed.

Lemma toListRounds_names order prefix am :
  map Name (concat (map fst (toListRounds order prefix am))) = specNames am.
Proof.
  unfold toListRounds, specNames. induction am as [|[n [sp subs]] rest IH]; [done|].
  cbn [map concat flat_map fst snd spec]. rewrite map_app, IH. f_equal.
  destruct sp as [sp|]; [|done]. rewrite toListEntry_node.
  by destruct (toList order (prefix ++ [n]) subs).
Qed.

Lemma toList_names order prefix am :
  map Name (fst (toList order prefix am)) ≡ₚ specNames am.
Proof.
  rewrite <- (toListRounds_names order prefix am). unfold toList, joinRuns. cbn [fst].
  apply Permutation_map, concat_perm, Permutation_map, ranged_perm.
Qed.

Lemma toList_emitted_whole order prefix am sp :
  sp ∈ fst (toList order prefix am) →
  ∃ name art sp0,
    (name, art) ∈ am ∧ spec art = Some sp0
    ∧ sp = withSubResources (withName sp0 name)
             (SubResources sp0 ++ fst (toList order (prefix ++ [name]) (subresources art))).
Proof.
  unfold toList at 1. intros (round & Hr & Hsp)%elem_of_joinRuns_fst.
  rewrite ranged_perm in Hr. unfold toListRounds in Hr.
  apply elem_of_map_iff in Hr as ([name art] & -> & Hin).
  destruct art as [[sp0|] subs].
  - rewrite toListEntry_node in Hsp.
    destruct (toList order (prefix ++ [name]) subs) as [subSpecs logs] eqn:E.
    simpl in Hsp. apply list_elem_of_singleton in Hsp as ->.
    exists name, {| spec := Some sp0; subresources := subs |}, sp0.
    split; [done|]. split; [done|]. cbn [subresources]. by rewrite E.
  - rewrite toListEntry_gap in Hsp. by apply elem_of_nil in Hsp.
Qed.

(** What an emitted item of one resource list goes back to: a discovered
    resource whose name is one step, stored at that step of the tree. *)
Lemma groupTree_emitted order idx gv mrs sp :
  sp ∈ fst (toList order [] (groupTree order idx gv mrs)) →
  ∃ art rsc,
    lookupStep (Name sp) (groupTree order idx gv mrs) = Some art
    ∧ spec art = Some (enumSpec order idx gv rsc)
    ∧ rsc ∈ mrs ∧ drName rsc = Name sp ∧ hasSlash (Name sp) = false
    ∧ sp = withSubResources (enumSpec order idx gv rsc)
             (fst (toList order [Name sp] (subresources art))).
Proof.
  intros (name & art & sp0 & Hin & Hart & ->)%toList_emitted_whole.
  pose proof (groupTree_keyed order idx gv mrs) as [Hnd _].
  pose proof (elem_of_lookupStep _ _ _ Hnd Hin) as Hl.
  assert (Hat : specAt [name] (groupTree order idx gv mrs) = Some sp0).
  { by rewrite specAt_cons, Hl. }
  apply specAt_foldl_inv in Hat as [Hat|[Hsp Hsplit]]; [by rewrite specAt_empty in Hat|].
  unfold enumAPIResourcesLocked in Hsp. apply elem_of_map_iff in Hsp as (rsc & -> & Hrsc).
  apply Split_single_inv in Hsplit as [Hname Hslash]. cbn [Name enumSpec] in Hname, Hslash.
  subst name. exists art, rsc. cbn [Name withSubResources withName].
  repeat split; try done.
Qed.

(** X11: writing a spec into the tree and reading it back.  [insert] on a
    path of at least one step never panics; afterwards the path leads to the
    inserted spec, the spec found at every other path is what it was
    before, and no step occurs twice at any level if none did before.  On
    an empty path [insert] panics. *)
Theorem insert_then_read name0 rest sp am :
  (∃ am',
      insert (name0 :: rest) sp am = Some am'
      ∧ specAt (name0 :: rest) am' = Some sp
      ∧ (∀ path, path ≠ name0 :: rest → specAt path am' = specAt path am)
      ∧ (mapKeyed am → mapKeyed am'))
  ∧ insert [] sp am = None.
Proof.
  split; [|done]. destruct (insert_Some name0 rest sp am) as [am' E].
  exists am'. split; [done|]. split; [by eapply specAt_insert_eq|]. split.
  - intros path Hne. by eapply specAt_insert_ne.
  - intros Hk. by eapply insert_keyed.
Qed.

(** ** What [List] emits *)

Lemma Forall_concat_intro {A : Type} (P : A → Prop) (ls : list (list A)) :
  Forall (Forall P) ls → Forall P (concat ls).
Proof. induction 1; simpl; [constructor|]. by apply Forall_app. Qed.

Lemma listGroup_items sgv order disc rv rlw group ar :
  ar ∈ fst (listGroup sgv order disc rv rlw group) →
  ∃ gv sp,
    ParseGroupVersion (drlGroupVersion group) = Some gv
    ∧ ar = specComplete sgv sp rv gv
    ∧ (if includeSubresources rlw
       then default "" (groupToVersion (fst (fst (groupsAndResources disc))) !! gvGroup gv)
            = gvVersion gv
            ∧ sp ∈ fst (toList order []
                         (groupTree order (index rlw) gv (drlAPIResources group)))
       else ∃ rsc, rsc ∈ drlAPIResources group ∧ sp = enumSpec order (index rlw) gv rsc).
Proof.
  unfold listGroup, listGroupWithSubresources, listGroupSansSubresources.
  destruct (includeSubresources rlw).
  - destruct (ParseGroupVersion (drlGroupVersion group)) as [gv|];
      [|by intros ?%elem_of_nil].
    destruct (String.eqb_spec
                (default "" (groupToVersion (fst (fst (groupsAndResources disc))) !! gvGroup gv))
                (gvVersion gv)) as [Hv|Hv]; [|by intros ?%elem_of_nil].
    cbn [negb]. fold (groupTree order (index rlw) gv (drlAPIResources group)).
    destruct (toList order [] _) as [specs gaps] eqn:E. cbn [fst].
    intros (sp & -> & Hsp)%elem_of_map_iff. exists gv, sp. by rewrite E.
  - destruct (ParseGroupVersion (drlGroupVersion group)) as [gv|];
      [|by intros ?%elem_of_nil].
    cbn [fst]. intros (sp & -> & Hsp)%elem_of_map_iff.
    unfold enumAPIResourcesLocked in Hsp. apply elem_of_map_iff in Hsp as (rsc & -> & Hrsc).
    exists gv, (enumSpec order (index rlw) gv rsc). split; [done|]. split; [done|].
    by exists rsc.
Qed.

Lemma List_item sgv order disc rlw ar :
  ar ∈ arlItems (listed (fst (List sgv order disc rlw))) →
  ∃ group, group ∈ resourceFeed disc (includeSubresources rlw)
    ∧ ar ∈ fst (listGroup sgv order disc (FormatInt (Int64.add (resourceVersionI rlw) 1))
                  rlw group).
Proof.
  rewrite List_items. intros (round & Hr & Har)%elem_of_joinRuns_fst.
  apply elem_of_map_iff in Hr as (group & -> & Hgroup). by exists group.
Qed.

(** X12: every resource in a listed collection carries the list version of
    the collection as its own resource version, the kind [APIResource] and
    the API version of the collection. *)
Theorem listed_items_are_stamped sgv order disc rlw :
  let collection := listed (fst (List sgv order disc rlw)) in
  Forall (λ ar, omResourceVersion (arObjectMeta ar) = arlResourceVersion collection
                ∧ arTypeMeta ar = {| tmKind := "APIResource";
                                     tmAPIVersion := tmAPIVersion (arlTypeMeta collection) |})
         (arlItems collection).
Proof.
  intros collection. apply Forall_forall. intros ar Har. subst collection.
  apply List_item in Har as (group & _ & Har).
  apply listGroup_items in Har as (gv & sp & _ & -> & _).
  rewrite List_listed. done.
Qed.

(** X13: every listed resource carries the definers that the definer index
    holds for its own group, version and name: one [Definer] per definer of
    that resource, none dropped and none merged, even if two definers share
    kind and name. *)
Theorem listed_definers_come_from_index sgv order disc rlw :
  Forall (λ ar,
            let sp := arSpec ar in
            let definers :=
              definersOf (rscToDefiners (index rlw))
                {| gvrGroup := Group sp; gvrVersion := Version sp; gvrResource := Name sp |} in
            Definers sp ≡ₚ map toDefiner (elements definers)
            ∧ length (Definers sp) = size definers)
         (arlItems (listed (fst (List sgv order disc rlw)))).
Proof.
  apply Forall_forall. intros ar Har.
  apply List_item in Har as (group & _ & Har).
  apply listGroup_items in Har as (gv & sp & _ & -> & Hsp).
  assert (H : ∃ rsc, Definers sp = Definers (enumSpec order (index rlw) gv rsc)
                     ∧ Name sp = drName rsc
                     ∧ Group sp = gvGroup gv
                     ∧ Version sp = Version (enumSpec order (index rlw) gv rsc)).
  { destruct (includeSubresources rlw).
    - destruct Hsp as [_ Hsp].
      apply groupTree_emitted in Hsp as (art & rsc & _ & _ & _ & Hn & _ & Hsp).
      exists rsc. rewrite Hsp at 1 3 4. by rewrite <- Hn.
    - destruct Hsp as (rsc & _ & ->). by exists rsc. }
  destruct H as (rsc & Hd & Hn & Hg & Hv). cbn zeta. cbn [arSpec specComplete].
  rewrite Hd, Hn, Hg, Hv. cbn [Definers Version enumSpec]. unfold definersToSlice.
  fold toDefiner. split.
  - apply Permutation_map, ranged_perm.
  - rewrite length_map, ranged_perm. done.
Qed.

Lemma groupToVersion_lookup groups name :
  groupToVersion groups !! name
  = agPreferredVersion <$> last (filter (λ ag, agName ag = name) groups).
Proof.
  unfold groupToVersion. induction groups as [|ag groups IH] using rev_ind; [done|].
  rewrite foldl_snoc, filter_app, filter_cons, filter_nil.
  destruct (decide (agName ag = name)) as [<-|Hne].
  - by rewrite lookup_insert_eq, last_snoc.
  - by rewrite lookup_insert_ne, app_nil_r.
Qed.

(** X14: with subresources, [List] emits resources of preferred versions
    only.  Every listed resource comes from a resource list whose version is
    the preferred version of the last group of that name in the group list;
    when no group of that name is listed, a resource list is used only if
    its version is empty. *)
Theorem only_preferred_versions_listed sgv order disc rlw :
  includeSubresources rlw = true →
  Forall (λ ar, ∃ group gv,
            group ∈ snd (fst (groupsAndResources disc))
            ∧ ParseGroupVersion (drlGroupVersion group) = Some gv
            ∧ omName (arObjectMeta ar)
              = gvGroup gv +:+ ":" +:+ gvVersion gv +:+ ":" +:+ Name (arSpec ar)
            ∧ gvVersion gv
              = default "" (agPreferredVersion
                              <$> last (filter (λ ag, agName ag = gvGroup gv)
                                               (fst (fst (groupsAndResources disc))))))
         (arlItems (listed (fst (List sgv order disc rlw)))).
Proof.
  intros Hsub. apply Forall_forall. intros ar Har.
  apply List_item in Har as (group & Hgroup & Har).
  apply listGroup_items in Har as (gv & sp & Hgv & -> & Hsp).
  rewrite Hsub in Hgroup, Hsp. destruct Hsp as [Hv _].
  exists group, gv. split; [done|]. split; [done|]. split; [done|].
  by rewrite <- groupToVersion_lookup.
Qed.

Lemma only_preferred_versions_listed_witness :
  let resource :=
    {| drName := "widgets"; drSingularName := ""; drNamespaced := true;
       drVersion := ""; drKind := "Widget"; drVerbs := [] |} in
  let disc :=
    {| groupsAndResources :=
         ([ {| agName := "example.com"; agPreferredVersion := "v2" |} ],
          [ {| drlGroupVersion := "example.com/v1"; drlAPIResources := [resource] |};
            {| drlGroupVersion := "example.com/v2"; drlAPIResources := [resource] |} ], None);
       preferredResources := ([], None) |} in
  map (λ ar, omName (arObjectMeta ar))
      (arlItems (listed (fst (List "v1alpha1" orderAsStored disc (newWatcher "c" true)))))
  = ["example.com:v2:widgets"]
  ∧ Forall (λ ar, ∃ group gv,
              group ∈ snd (fst (groupsAndResources disc))
              ∧ ParseGroupVersion (drlGroupVersion group) = Some gv
              ∧ omName (arObjectMeta ar)
                = gvGroup gv +:+ ":" +:+ gvVersion gv +:+ ":" +:+ Name (arSpec ar)
              ∧ gvVersion gv
                = default "" (agPreferredVersion
                                <$> last (filter (λ ag, agName ag = gvGroup gv)
                                                 (fst (fst (groupsAndResources disc))))))
           (arlItems (listed (fst (List "v1alpha1" orderAsStored disc (newWatcher "c" true))))).
Proof.
  intros resource disc. split; [reflexivity|].
  apply (only_preferred_versions_listed "v1alpha1" orderAsStored disc (newWatcher "c" true)).
  reflexivity.
Defined.

(** X15: without subresources, [List] emits one resource for each resource
    of each resource list of the preferred-resources feed whose
    group-version string parses, in the order of the feed and with
    duplicates kept; a resource list whose group-version string does not
    parse contributes nothing. *)
Theorem sans_subresources_follows_feed sgv order disc rlw :
  includeSubresources rlw = false →
  map (λ ar, Name (arSpec ar)) (arlItems (listed (fst (List sgv order disc rlw))))
  = concat (map (λ group, match ParseGroupVersion (drlGroupVersion group) with
                          | Some _ => map drName (drlAPIResources group)
                          | None => []
                          end)
                (fst (preferredResources disc))).
Proof.
  intros Hsub. rewrite List_listed. cbn [arlItems]. unfold resourceFeed, listGroup.
  rewrite Hsub. induction (fst (preferredResources disc)) as [|group feed IH]; [done|].
  cbn [map concat]. rewrite map_app, IH. f_equal.
  unfold listGroupSansSubresources.
  destruct (ParseGroupVersion (drlGroupVersion group)); [|done].
  cbn [fst]. unfold enumAPIResourcesLocked. rewrite !map_map. done.
Qed.

Lemma sans_subresources_follows_feed_witness :
  let resource name :=
    {| drName := name; drSingularName := ""; drNamespaced := true;
       drVersion := ""; drKind := "Kind"; drVerbs := [] |} in
  let disc :=
    {| groupsAndResources := ([], [], None);
       preferredResources :=
         ([ {| drlGroupVersion := "apps/v1";
               drlAPIResources := [resource "deployments"; resource "deployments"] |};
            {| drlGroupVersion := "a/b/c"; drlAPIResources := [resource "lost"] |};
            {| drlGroupVersion := "v1"; drlAPIResources := [resource "pods"] |} ],
          Some "partial") |} in
  map (λ ar, Name (arSpec ar))
      (arlItems (listed (fst (List "v1alpha1" orderReversed disc (newWatcher "c" false)))))
  = concat (map (λ group, match ParseGroupVersion (drlGroupVersion group) with
                          | Some _ => map drName (drlAPIResources group)
                          | None => []
                          end)
                (fst (preferredResources disc))).
Proof.
  intros resource disc.
  apply (sans_subresources_follows_feed "v1alpha1" orderReversed disc (newWatcher "c" false)).
  reflexivity.
Defined.

Lemma append_inj_r (p a b : string) : p +:+ a = p +:+ b → a = b.
Proof. induction p as [|c p IH]; simpl; [done|]. intros [= H]. by apply IH. Qed.

Lemma groupTree_names order idx gv mrs n :
  n ∈ specNames (groupTree order idx gv mrs)
  ↔ hasSlash n = false ∧ ∃ rsc, rsc ∈ mrs ∧ drName rsc = n.
Proof.
  pose proof (groupTree_keyed order idx gv mrs) as [Hnd _].
  rewrite (elem_of_specNames_keyed _ _ Hnd). unfold groupTree. split.
  - intros [sp Hsp]. apply specAt_foldl_inv in Hsp as [Hsp|[Hin Hs]];
      [by rewrite specAt_empty in Hsp|].
    unfold enumAPIResourcesLocked in Hin. apply elem_of_map_iff in Hin as (rsc & -> & Hrsc).
    apply Split_single_inv in Hs as [Hn Hs]. cbn [Name enumSpec] in Hn, Hs. subst n.
    split; [done|]. by exists rsc.
  - intros (Hs & rsc & Hrsc & <-). apply specAt_foldl_intro. right.
    exists (enumSpec order idx gv rsc). split.
    + unfold enumAPIResourcesLocked. apply elem_of_map_iff. by exists rsc.
    + cbn [Name enumSpec]. by apply Split_no_slash.
Qed.

(** X16: with subresources, one resource list of a preferred version gives
    exactly one resource for each distinct slash-free resource name in it:
    the names of the emitted resources are the resource names of the list
    without a slash, each once, however often the feed repeats a name, and so
    their object names are distinct too. *)
Theorem top_level_resources_listed_once sgv order disc rv rlw group gv :
  includeSubresources rlw = true →
  ParseGroupVersion (drlGroupVersion group) = Some gv →
  gvVersion gv
  = default "" (agPreferredVersion
                  <$> last (filter (λ ag, agName ag = gvGroup gv)
                                   (fst (fst (groupsAndResources disc))))) →
  let items := fst (listGroup sgv order disc rv rlw group) in
  NoDup (map (λ ar, omName (arObjectMeta ar)) items)
  ∧ NoDup (map (λ ar, Name (arSpec ar)) items)
  ∧ ∀ n, n ∈ map (λ ar, Name (arSpec ar)) items
         ↔ hasSlash n = false ∧ ∃ rsc, rsc ∈ drlAPIResources group ∧ drName rsc = n.
Proof.
  intros Hsub Hgv Hpref items. subst items.
  unfold listGroup, listGroupWithSubresources.
  rewrite Hsub, Hgv, groupToVersion_lookup, <- Hpref, String.eqb_refl. cbn [negb].
  fold (groupTree order (index rlw) gv (drlAPIResources group)).
  pose proof (toList_names order [] (groupTree order (index rlw) gv (drlAPIResources group)))
    as Hnames.
  pose proof (groupTree_keyed order (index rlw) gv (drlAPIResources group)) as [Hnd _].
  destruct (toList order [] _) as [specs gaps]. cbn [fst] in *.
  rewrite !map_map. cbn [arSpec arObjectMeta omName specComplete].
  assert (Hn : NoDup (map Name specs)).
  { rewrite Hnames. by apply specNames_NoDup. }
  split; [|split].
  - rewrite <- (map_map Name (λ n, gvGroup gv +:+ ":" +:+ gvVersion gv +:+ ":" +:+ n)).
    apply NoDup_fmap_2; [|done].
    intros a b H. by do 4 apply append_inj_r in H.
  - done.
  - intros n. rewrite Hnames. apply groupTree_names.
Qed.

Lemma top_level_resources_listed_once_witness :
  let resource name :=
    {| drName := name; drSingularName := ""; drNamespaced := true;
       drVersion := ""; drKind := "Kind"; drVerbs := [] |} in
  let group := {| drlGroupVersion := "v1";
                  drlAPIResources := [resource "pods"; resource "pods/status";
                                      resource "pods"] |} in
  let disc :=
    {| groupsAndResources := ([ {| agName := ""; agPreferredVersion := "v1" |} ], [group], None);
       preferredResources := ([], None) |} in
  NoDup (map (λ ar, omName (arObjectMeta ar))
             (fst (listGroup "v1alpha1" orderAsStored disc "7" (newWatcher "c" true) group))).
Proof.
  intros resource group disc.
  apply (top_level_resources_listed_once "v1alpha1" orderAsStored disc "7" (newWatcher "c" true)
           group {| gvGroup := ""; gvVersion := "v1" |} eq_refl eq_refl eq_refl).
Defined.

(** X17: with subresources, the nested subresources of a listed resource
    are the one-step subresources that its resource list names: a listed
    resource [n] nests a spec named [c] exactly when [c] has no slash and the
    resource list holds a resource named [n/c], and it nests each such name
    once. *)
Theorem nested_subresources_listed sgv order disc rlw ar :
  includeSubresources rlw = true →
  ar ∈ arlItems (listed (fst (List sgv order disc rlw))) →
  ∃ group,
    group ∈ snd (fst (groupsAndResources disc))
    ∧ NoDup (map Name (SubResources (arSpec ar)))
    ∧ ∀ c, c ∈ map Name (SubResources (arSpec ar))
           ↔ hasSlash c = false
             ∧ ∃ rsc, rsc ∈ drlAPIResources group
                      ∧ drName rsc = Name (arSpec ar) +:+ "/" +:+ c.
Proof.
  intros Hsub Har. apply List_item in Har as (group & Hgroup & Har).
  apply listGroup_items in Har as (gv & sp & _ & -> & Hsp).
  rewrite Hsub in Hgroup, Hsp. destruct Hsp as [_ Hsp]. exists group. split; [done|].
  apply groupTree_emitted in Hsp as (art & rsc0 & Hl & Hart & _ & _ & Hslash & Hsp).
  assert (Hsubs : SubResources sp = fst (toList order [Name sp] (subresources art))).
  { by rewrite Hsp at 1. }
  cbn [arSpec specComplete]. rewrite Hsubs. clear Hsp Hsubs.
  set (n := Name sp) in *.
  set (tree := groupTree order (index rlw) gv (drlAPIResources group)) in *.
  pose proof (lookupStep_keyed n art tree (groupTree_keyed _ _ _ _) Hl) as Hk.
  destruct Hk as [s0 subs Hnd _]. cbn [subresources] in *.
  pose proof (toList_names order [n] subs) as Hnames.
  split; [rewrite Hnames; by apply specNames_NoDup|].
  intros c. rewrite Hnames, (elem_of_specNames_keyed _ _ Hnd).
  assert (Hdeep : specAt [c] subs = specAt [n; c] tree).
  { by rewrite (specAt_cons n [c] tree), Hl. }
  rewrite Hdeep. subst tree. unfold groupTree. split.
  - intros [sub Hsub']. apply specAt_foldl_inv in Hsub' as [Hsub'|[Hin Hs]];
      [by rewrite specAt_empty in Hsub'|].
    unfold enumAPIResourcesLocked in Hin. apply elem_of_map_iff in Hin as (rsc & -> & Hrsc).
    cbn [Name enumSpec] in Hs.
    apply Split_cons_inv in Hs as (rest & Hname & Hrest & _).
    apply Split_single_inv in Hrest as [-> Hc].
    split; [done|]. by exists rsc.
  - intros (Hc & rsc & Hrsc & Hname). apply specAt_foldl_intro. right.
    exists (enumSpec order (index rlw) gv rsc). split.
    + unfold enumAPIResourcesLocked. apply elem_of_map_iff. by exists rsc.
    + cbn [Name enumSpec]. rewrite Hname.
      change (n +:+ "/" +:+ c) with (n +:+ String slash c).
      rewrite (Split_app_slash _ _ Hslash). by rewrite (Split_no_slash _ Hc).
Qed.

Lemma nested_subresources_listed_witness :
  let resource name :=
    {| drName := name; drSingularName := ""; drNamespaced := true;
       drVersion := ""; drKind := "Kind"; drVerbs := [] |} in
  let group := {| drlGroupVersion := "v1";
                  drlAPIResources := [resource "pods"; resource "pods/status"] |} in
  let disc :=
    {| groupsAndResources := ([ {| agName := ""; agPreferredVersion := "v1" |} ], [group], None);
       preferredResources := ([], None) |} in
  let ar :=
    specComplete "v1alpha1"
      (withSubResources (enumSpec orderAsStored emptyIndex {| gvGroup := ""; gvVersion := "v1" |}
                           (resource "pods"))
         [withName (enumSpec orderAsStored emptyIndex {| gvGroup := ""; gvVersion := "v1" |}
                      (resource "pods/status")) "status"])
      "2" {| gvGroup := ""; gvVersion := "v1" |} in
  ∃ group',
    group' ∈ snd (fst (groupsAndResources disc))
    ∧ NoDup (map Name (SubResources (arSpec ar)))
    ∧ ∀ c, c ∈ map Name (SubResources (arSpec ar))
           ↔ hasSlash c = false
             ∧ ∃ rsc, rsc ∈ drlAPIResources group'
                      ∧ drName rsc = Name (arSpec ar) +:+ "/" +:+ c.
Proof.
  intros resource group disc ar.
  apply (nested_subresources_listed "v1alpha1" orderAsStored disc (newWatcher "c" true) ar
           eq_refl).
  vm_compute. apply list_elem_of_here.
Defined.

(** X18: [List] works through the feed one resource list at a time: the
    resources listed for a feed made of two parts are those listed for the
    first part followed by those listed for the second, and a resource list
    whose group-version string does not parse adds nothing. *)
Theorem listing_goes_list_by_list sgv order rlw groups err err' feed1 feed2 pref1 pref2 :
  let items feed pref :=
    arlItems (listed (fst (List sgv order
      {| groupsAndResources := (groups, feed, err); preferredResources := (pref, err') |}
      rlw))) in
  items (feed1 ++ feed2) (pref1 ++ pref2) = items feed1 pref1 ++ items feed2 pref2
  ∧ ∀ bad, ParseGroupVersion (drlGroupVersion bad) = None → items [bad] [bad] = [].
Proof.
  intros items. subst items. cbn beta. rewrite !List_listed. cbn [arlItems].
  unfold resourceFeed, listGroup.
  cbn [groupsAndResources preferredResources fst snd]. split.
  - destruct (includeSubresources rlw); by rewrite map_app, concat_app.
  - intros bad Hbad. rewrite List_listed. cbn [arlItems]. unfold resourceFeed, listGroup.
    destruct (includeSubresources rlw);
      cbn [groupsAndResources preferredResources fst snd map concat];
      unfold listGroupWithSubresources, listGroupSansSubresources; by rewrite Hbad.
Qed.

Lemma listing_goes_list_by_list_witness :
  arlItems (listed (fst (List "v1alpha1" orderAsStored
    {| groupsAndResources := ([], [ {| drlGroupVersion := "a/b/c"; drlAPIResources := [] |} ],
                              None);
       preferredResources := ([ {| drlGroupVersion := "a/b/c"; drlAPIResources := [] |} ],
                              None) |}
    (newWatcher "c" false)))) = [].
Proof.
  apply (proj2 (listing_goes_list_by_list "v1alpha1" orderAsStored (newWatcher "c" false)
                  [] None None [] [] [] [])
           {| drlGroupVersion := "a/b/c"; drlAPIResources := [] |}).
  reflexivity.
Defined.

Lemma specAt_foldl_last path specs am :
  specAt path (foldl insertResource am specs)
  = match last (filter (λ sp, Split (Name sp) = path) specs) with
    | Some sp => Some sp
    | None => specAt path am
    end.
Proof.
  induction specs as [|x specs IH] using rev_ind; [done|].
  rewrite foldl_snoc, specAt_insertResource, filter_app, filter_cons, filter_nil.
  destruct (decide (Split (Name x) = path)) as [E|Hne].
  - rewrite last_snoc. by destruct (decide (path = Split (Name x))).
  - rewrite app_nil_r, <- IH. by destruct (decide (path = Split (Name x))).
Qed.

Lemma last_filter_map {A B : Type} (f : A → B) (P : B → Prop) `{!∀ y, Decision (P y)}
    (l : list A) :
  last (filter P (map f l)) = f <$> last (filter (λ x, P (f x)) l).
Proof.
  induction l as [|x l IH] using rev_ind; [done|].
  rewrite map_app, !filter_app. cbn [map]. rewrite !filter_cons, !filter_nil.
  destruct (decide (P (f x))); [by rewrite !last_snoc|]. by rewrite !app_nil_r.
Qed.

Lemma groupTree_last order idx gv mrs name :
  hasSlash name = false →
  specAt (Split name) (groupTree order idx gv mrs)
  = enumSpec order idx gv <$> last (filter (λ rsc, drName rsc = name) mrs).
Proof.
  intros Hs. unfold groupTree. rewrite specAt_foldl_last, specAt_empty.
  unfold enumAPIResourcesLocked. rewrite last_filter_map.
  rewrite (list_filter_iff _ (λ rsc, drName rsc = name)).
  - by destruct (last _).
  - intros rsc. cbn [Name enumSpec]. rewrite (Split_no_slash _ Hs). split.
    + by intros [? _]%Split_single_inv.
    + intros ->. by apply Split_no_slash.
Qed.

(** X19: with subresources, when a resource list names a resource more than
    once the last entry wins: a listed resource has the kind, singular name,
    namespaced flag and verbs of the last resource of that name in its list,
    its group is the group of the list, and its version is that resource's
    own version or, when that is empty, the version of the list. *)
Theorem last_duplicate_wins sgv order disc rlw ar :
  includeSubresources rlw = true →
  ar ∈ arlItems (listed (fst (List sgv order disc rlw))) →
  ∃ group gv rsc,
    group ∈ snd (fst (groupsAndResources disc))
    ∧ ParseGroupVersion (drlGroupVersion group) = Some gv
    ∧ last (filter (λ r, drName r = Name (arSpec ar)) (drlAPIResources group)) = Some rsc
    ∧ Kind (arSpec ar) = drKind rsc
    ∧ SingularName (arSpec ar) = drSingularName rsc
    ∧ Namespaced (arSpec ar) = drNamespaced rsc
    ∧ Verbs (arSpec ar) = drVerbs rsc
    ∧ Group (arSpec ar) = gvGroup gv
    ∧ Version (arSpec ar) = (if String.eqb (drVersion rsc) "" then gvVersion gv
                             else drVersion rsc).
Proof.
  intros Hsub Har. apply List_item in Har as (group & Hgroup & Har).
  apply listGroup_items in Har as (gv & sp & Hgv & -> & Hsp).
  rewrite Hsub in Hgroup, Hsp. destruct Hsp as [_ Hsp].
  apply groupTree_emitted in Hsp as (art & rsc0 & Hl & Hart & _ & _ & Hslash & Hsp).
  pose proof (groupTree_last order (index rlw) gv (drlAPIResources group) (Name sp) Hslash)
    as Hlast.
  rewrite (Split_no_slash _ Hslash), specAt_cons, Hl, Hart in Hlast.
  destruct (last (filter _ _)) as [rsc|] eqn:E; [|done].
  assert (Hsame : enumSpec order (index rlw) gv rsc0 = enumSpec order (index rlw) gv rsc).
  { change (Some (enumSpec order (index rlw) gv rsc0)
            = Some (enumSpec order (index rlw) gv rsc)) in Hlast.
    congruence. }
  rewrite Hsame in Hsp.
  exists group, gv, rsc. cbn [arSpec specComplete].
  split; [done|]. split; [done|]. split; [done|].
  rewrite Hsp. done.
Qed.

Lemma last_duplicate_wins_witness :
  let resource kind :=
    {| drName := "pods"; drSingularName := ""; drNamespaced := true;
       drVersion := ""; drKind := kind; drVerbs := [] |} in
  let group := {| drlGroupVersion := "v1";
                  drlAPIResources := [resource "First"; resource "Second"] |} in
  let disc :=
    {| groupsAndResources := ([ {| agName := ""; agPreferredVersion := "v1" |} ], [group], None);
       preferredResources := ([], None) |} in
  let ar := specComplete "v1alpha1"
              (enumSpec orderAsStored emptyIndex {| gvGroup := ""; gvVersion := "v1" |}
                 (resource "Second"))
              "2" {| gvGroup := ""; gvVersion := "v1" |} in
  ∃ group' gv rsc,
    group' ∈ snd (fst (groupsAndResources disc))
    ∧ ParseGroupVersion (drlGroupVersion group') = Some gv
    ∧ last (filter (λ r, drName r = Name (arSpec ar)) (drlAPIResources group')) = Some rsc
    ∧ Kind (arSpec ar) = drKind rsc
    ∧ SingularName (arSpec ar) = drSingularName rsc
    ∧ Namespaced (arSpec ar) = drNamespaced rsc
    ∧ Verbs (arSpec ar) = drVerbs rsc
    ∧ Group (arSpec ar) = gvGroup gv
    ∧ Version (arSpec ar) = (if String.eqb (drVersion rsc) "" then gvVersion gv
                             else drVersion rsc).
Proof.
  intros resource group disc ar.
  apply (last_duplicate_wins "v1alpha1" orderAsStored disc (newWatcher "c" true) ar eq_refl).
  vm_compute. apply list_elem_of_here.
Defined.



(** ** Gaps in the subresource structure *)

Lemma elem_of_joinRuns_snd {A B : Type} (runs : list (list A * list B)) (y : B) :
  y ∈ snd (joinRuns runs) ↔ ∃ round, round ∈ runs ∧ y ∈ snd round.
Proof.
  unfold joinRuns. simpl. induction runs as [|r runs IH]; simpl.
  - split; [by intros ?%elem_of_nil | by intros (? & ?%elem_of_nil & _)].
  - rewrite elem_of_app, IH. split.
    + intros [H|(round & Hr & Hx)]; [exists r | exists round]; set_solver.
    + intros (round & [->|Hr]%elem_of_cons & Hx); [by left | right; by exists round].
Qed.

Lemma toList_gaps order prefix am g :
  g ∈ snd (toList order prefix am)
  ↔ (∃ art, (gapName g, art) ∈ am ∧ spec art = None ∧ gapPrefix g = prefix)
    ∨ (∃ name art sp, (name, art) ∈ am ∧ spec art = Some sp
                      ∧ g ∈ snd (toList order (prefix ++ [name]) (subresources art))).
Proof.
  unfold toList at 1. rewrite elem_of_joinRuns_snd. split.
  - intros (round & Hr & Hg). rewrite ranged_perm in Hr. unfold toListRounds in Hr.
    apply elem_of_map_iff in Hr as ([name [[sp|] subs]] & -> & Hin).
    + right. exists name, {| spec := Some sp; subresources := subs |}, sp.
      split; [done|]. split; [done|]. rewrite toListEntry_node in Hg. cbn [subresources].
      by destruct (toList order (prefix ++ [name]) subs).
    + left. rewrite toListEntry_gap in Hg. cbn [snd] in Hg.
      apply list_elem_of_singleton in Hg as ->.
      by exists {| spec := None; subresources := subs |}.
  - intros [(art & Hin & Hs & Hp)|(name & art & sp & Hin & Hs & Hg)].
    + exists (toListEntry order prefix (gapName g) art). split.
      * rewrite ranged_perm. unfold toListRounds. apply elem_of_map_iff.
        by exists (gapName g, art).
      * destruct art as [s subs]. cbn [spec] in Hs. subst s. rewrite toListEntry_gap.
        cbn [snd]. apply list_elem_of_singleton. destruct g. simpl in *. by subst.
    + exists (toListEntry order prefix name art). split.
      * rewrite ranged_perm. unfold toListRounds. apply elem_of_map_iff.
        by exists (name, art).
      * destruct art as [s subs]. cbn [spec subresources] in *. subst s.
        rewrite toListEntry_node. by destruct (toList order (prefix ++ [name]) subs).
Qed.

Lemma toList_gap_below order am :
  ∀ prefix g, g ∈ snd (toList order prefix am) → ∃ below, gapPrefix g = prefix ++ below.
Proof.
  cut (∀ t prefix name g, g ∈ snd (toListEntry order prefix name t) →
                          ∃ below, gapPrefix g = prefix ++ below).
  { intros H prefix g (round & Hr & Hg)%elem_of_joinRuns_snd.
    rewrite ranged_perm in Hr. unfold toListRounds in Hr.
    apply elem_of_map_iff in Hr as ([name art] & -> & _). by eapply H. }
  induction t as [sp subs IH] using arTuple_nested_ind. intros prefix name g.
  destruct sp as [sp|].
  - rewrite toListEntry_node.
    destruct (toList order (prefix ++ [name]) subs) as [subSpecs logs] eqn:E. cbn [snd].
    intros Hg. assert (Hg' : g ∈ snd (toList order (prefix ++ [name]) subs)) by (by rewrite E).
    unfold toList in Hg'. apply elem_of_joinRuns_snd in Hg' as (round & Hr & Hg').
    rewrite ranged_perm in Hr. unfold toListRounds in Hr.
    apply elem_of_map_iff in Hr as ([n a] & -> & Hin).
    rewrite Forall_forall in IH. destruct (IH (n, a) Hin (prefix ++ [name]) n g Hg') as [below Hb].
    exists ([name] ++ below). by rewrite Hb, app_assoc.
  - rewrite toListEntry_gap. cbn [snd]. intros ->%list_elem_of_singleton.
    exists []. by rewrite app_nil_r.
Qed.

Lemma top_gap_logged order prefix am name :
  NoDup (map fst am) →
  {| gapPrefix := prefix; gapName := name |} ∈ snd (toList order prefix am)
  ↔ is_Some (lookupStep name am) ∧ specAt [name] am = None.
Proof.
  intros Hnd. rewrite toList_gaps, specAt_cons. cbn [gapName gapPrefix]. split.
  - intros [(art & Hin & Hs & _)|(n & art & sp & _ & _ & Hg)].
    + by rewrite (elem_of_lookupStep _ _ _ Hnd Hin).
    + apply toList_gap_below in Hg as [below Hb]. cbn [gapPrefix] in Hb.
      apply (f_equal length) in Hb. rewrite !length_app in Hb. simpl in Hb. lia.
  - destruct (lookupStep name am) as [art|] eqn:E; [|by intros [[? ?] _]].
    intros [_ Hs]. left. exists art. split; [by apply lookupStep_elem_of | done].
Qed.

Lemma lookupStep_insertResource name am ar :
  is_Some (lookupStep name (insertResource am ar))
  ↔ is_Some (lookupStep name am) ∨ head (Split (Name ar)) = Some name.
Proof.
  unfold insertResource. destruct (insert_Split_Some (Name ar) ar am) as [am' E].
  rewrite E. destruct (Split (Name ar)) as [|name0 rest]; [done|].
  cbn [insert head] in *.
  assert (H : ∃ art, am' = storeStep name0 art am).
  { destruct rest; [injection E as <-; by eexists|].
    destruct (insert _ _ _); [injection E as <-; by eexists | done]. }
  destruct H as [art ->]. destruct (decide (name = name0)) as [->|Hne].
  - rewrite lookupStep_storeStep_eq. split; [by right | done].
  - rewrite lookupStep_storeStep_ne by done. split; [by left|].
    intros [H|[= H]]; [done | congruence].
Qed.

Lemma groupTree_nodes order idx gv mrs name :
  is_Some (lookupStep name (groupTree order idx gv mrs))
  ↔ ∃ rsc, rsc ∈ mrs ∧ head (Split (drName rsc)) = Some name.
Proof.
  unfold groupTree, enumAPIResourcesLocked.
  cut (∀ am, is_Some (lookupStep name (foldl insertResource am (map (enumSpec order idx gv) mrs)))
             ↔ is_Some (lookupStep name am)
               ∨ ∃ rsc, rsc ∈ mrs ∧ head (Split (drName rsc)) = Some name).
  { intros H. rewrite H. split; [|by right].
    intros [[? H']|H']; [done | done]. }
  induction mrs as [|rsc mrs IH]; intros am; cbn [map foldl].
  - split; [by left|]. intros [H|(? & ?%elem_of_nil & _)]; done.
  - rewrite IH, lookupStep_insertResource. cbn [Name enumSpec]. split.
    + intros [[H|H]|(r & Hr & Hh)].
      * by left.
      * right. exists rsc. split; [apply list_elem_of_here | done].
      * right. exists r. split; [by apply list_elem_of_further | done].
    + intros [H|(r & [->|Hr]%elem_of_cons & Hh)].
      * left. by left.
      * left. by right.
      * right. by exists r.
Qed.

(** X21: with subresources, a gap at the top of a resource list is logged
    exactly for a step that only occurs as a parent: the log of the list
    holds a gap for [n] at the top level if and only if the list names a
    resource below [n] and none that is [n] itself. *)
Theorem top_level_gaps_logged sgv order disc rv rlw group gv n :
  includeSubresources rlw = true →
  ParseGroupVersion (drlGroupVersion group) = Some gv →
  gvVersion gv
  = default "" (agPreferredVersion
                  <$> last (filter (λ ag, agName ag = gvGroup gv)
                                   (fst (fst (groupsAndResources disc))))) →
  LogGap {| gapPrefix := []; gapName := n |} ∈ snd (listGroup sgv order disc rv rlw group)
  ↔ (∃ rsc sub rest, rsc ∈ drlAPIResources group ∧ Split (drName rsc) = n :: sub :: rest)
    ∧ ¬ ∃ rsc, rsc ∈ drlAPIResources group ∧ drName rsc = n.
Proof.
  intros Hsub Hgv Hpref. unfold listGroup, listGroupWithSubresources.
  rewrite Hsub, Hgv, groupToVersion_lookup, <- Hpref, String.eqb_refl. cbn [negb].
  fold (groupTree order (index rlw) gv (drlAPIResources group)).
  set (tree := groupTree order (index rlw) gv (drlAPIResources group)).
  pose proof (groupTree_keyed order (index rlw) gv (drlAPIResources group)) as [Hnd _].
  pose proof (top_gap_logged order [] tree n Hnd) as Htop.
  destruct (toList order [] tree) as [specs gaps] eqn:E. cbn [snd] in *.
  assert (Hmap : LogGap {| gapPrefix := []; gapName := n |} ∈ map LogGap gaps
                 ↔ {| gapPrefix := []; gapName := n |} ∈ gaps).
  { rewrite elem_of_map_iff. split; [by intros (g & [= <-] & Hg) | intros Hg; by eexists]. }
  rewrite Hmap, Htop. subst tree. rewrite groupTree_nodes. split.
  - intros [(rsc & Hrsc & Hhead) Hnone].
    assert (Hno : ¬ ∃ r, r ∈ drlAPIResources group ∧ Split (drName r) = [n]).
    { intros (r & Hr & Hs). unfold groupTree in Hnone.
      destruct (specAt_foldl_intro [n] (enumAPIResourcesLocked order (index rlw) gv
                  (drlAPIResources group)) []) as [x Hx]; [|congruence].
      right. exists (enumSpec order (index rlw) gv r). split; [|done].
      unfold enumAPIResourcesLocked. apply elem_of_map_iff. by exists r. }
    destruct (Split (drName rsc)) as [|n0 [|sub rest]] eqn:Es; [done| |].
    + injection Hhead as ->. exfalso. apply Hno. by exists rsc.
    + injection Hhead as ->. split; [by exists rsc, sub, rest|].
      intros (r & Hr & Hn). apply Hno. exists r. split; [done|].
      rewrite Hn. apply Split_no_slash.
      pose proof (Split_slash_free (drName rsc)) as Hfree. rewrite Es in Hfree.
      by apply Forall_cons in Hfree as [? _].
  - intros [(rsc & sub & rest & Hrsc & Hs) Hnone]. split.
    + exists rsc. split; [done|]. by rewrite Hs.
    + destruct (specAt [n] (groupTree order (index rlw) gv (drlAPIResources group)))
        as [sp|] eqn:Hat; [|done].
      exfalso. unfold groupTree in Hat.
      apply specAt_foldl_inv in Hat as [Hat|[Hin Hsplit]]; [by rewrite specAt_empty in Hat|].
      unfold enumAPIResourcesLocked in Hin. apply elem_of_map_iff in Hin as (r & -> & Hr).
      apply Split_single_inv in Hsplit as [Hname _]. apply Hnone. by exists r.
Qed.

Lemma top_level_gaps_logged_witness :
  let resource name :=
    {| drName := name; drSingularName := ""; drNamespaced := true;
       drVersion := ""; drKind := "Kind"; drVerbs := [] |} in
  let group := {| drlGroupVersion := "v1";
                  drlAPIResources := [resource "widgets/status"; resource "pods"] |} in
  let disc :=
    {| groupsAndResources := ([ {| agName := ""; agPreferredVersion := "v1" |} ], [group], None);
       preferredResources := ([], None) |} in
  LogGap {| gapPrefix := []; gapName := "widgets" |}
    ∈ snd (listGroup "v1alpha1" orderAsStored disc "2" (newWatcher "c" true) group)
  ↔ (∃ rsc sub rest, rsc ∈ drlAPIResources group ∧ Split (drName rsc) = "widgets" :: sub :: rest)
    ∧ ¬ ∃ rsc, rsc ∈ drlAPIResources group ∧ drName rsc = "widgets".
Proof.
  intros resource group disc.
  apply (top_level_gaps_logged "v1alpha1" orderAsStored disc "2" (newWatcher "c" true) group
           {| gvGroup := ""; gvVersion := "v1" |} "widgets" eq_refl eq_refl eq_refl).
Defined.
